(** * Iambic keyer state machine (docs/state_machine.py)

    A shallow embedding of the reference keyer FSM and the proofs of its
    specified properties.

    Numbers.  Python's [float] is IEEE-754 binary64, which is Rocq's
    primitive [float] (round to nearest even, signed zeros, infinities,
    NaN).  [wpm], [mem_block_start_pct], [mem_block_end_pct] and [dt_ms] are
    held as [float]: a Python [int] that binary64 represents exactly (every
    |n| <= 2^53) behaves as its float value in the operators applied to
    these fields ([/], [-], [>=], [<=]).  Python's [/] raises
    [ZeroDivisionError] on a zero divisor instead of returning an
    infinity; [py_truediv] models that.

    The source writes [class SqueezeMode(Enum:]; it is read as
    [class SqueezeMode(Enum):].

    Effects.  Methods mutate [self] in place and an exception leaves the
    fields assigned so far in place.  A method is a function from the
    object to an outcome and the object as the method left it. *)

From Stdlib Require Import Bool List ZArith Lia Floats.
Import ListNotations.

Local Open Scope float_scope.
Local Open Scope bool_scope.

(* ================================================================== *)
(** * Enumerations and configuration *)
(* ================================================================== *)

Module IambicMode.
Inductive t : Set :=
| A  (* no bonus element on release *)
| B. (* opposite bonus element when the squeeze is released *)

Definition eqb (x y : t) : bool :=
  match x, y with A, A | B, B => true | _, _ => false end.
End IambicMode.

Module MemoryMode.
Inductive t : Set := NONE | DOT_ONLY | DAH_ONLY | DOT_AND_DAH.

Definition eqb (x y : t) : bool :=
  match x, y with
  | NONE, NONE | DOT_ONLY, DOT_ONLY | DAH_ONLY, DAH_ONLY
  | DOT_AND_DAH, DOT_AND_DAH => true
  | _, _ => false
  end.
End MemoryMode.

Module SqueezeMode.
Inductive t : Set :=
| LIVE      (* squeeze evaluated in real time *)
| SNAPSHOT. (* squeeze evaluated as it was at release *)

Definition eqb (x y : t) : bool :=
  match x, y with LIVE, LIVE | SNAPSHOT, SNAPSHOT => true | _, _ => false end.
End SqueezeMode.

Module Element.
Inductive t : Set := DIT | DAH.

Definition eqb (x y : t) : bool :=
  match x, y with DIT, DIT | DAH, DAH => true | _, _ => false end.
End Element.

Module State.
Inductive t : Set := IDLE | SEND_DIT | SEND_DAH | INTER_ELEMENT_GAP.

Definition eqb (x y : t) : bool :=
  match x, y with
  | IDLE, IDLE | SEND_DIT, SEND_DIT | SEND_DAH, SEND_DAH
  | INTER_ELEMENT_GAP, INTER_ELEMENT_GAP => true
  | _, _ => false
  end.
End State.

Module PaddleCombo.
Inductive t : Set := NONE | DIT_ONLY | DAH_ONLY | BOTH.

Definition eqb (x y : t) : bool :=
  match x, y with
  | NONE, NONE | DIT_ONLY, DIT_ONLY | DAH_ONLY, DAH_ONLY | BOTH, BOTH => true
  | _, _ => false
  end.
End PaddleCombo.

(** [x in (a, b)] on enum members. *)
Definition in_tuple {T : Type} (eqb : T -> T -> bool) (x : T) (l : list T) : bool :=
  existsb (eqb x) l.

(** [current_element == Element.X], where [current_element] may be [None]. *)
Definition opt_element_is (c : option Element.t) (e : Element.t) : bool :=
  match c with
  | Some c' => Element.eqb c' e
  | None => false
  end.

(** Exceptions the code can raise. *)
Inductive exn : Set := ZeroDivisionError.

Inductive result (A : Type) : Type :=
| Ok (a : A)
| Raise (e : exn).
Arguments Ok {A} a.
Arguments Raise {A} e.

(** Python's [x / y] on floats. *)
Definition py_truediv (x y : float) : result float :=
  if y =? 0 then Raise ZeroDivisionError else Ok (x / y).

Record KeyerConfig : Set := {
  wpm : float;
  iambic_mode : IambicMode.t;
  memory_mode : MemoryMode.t;
  squeeze_mode : SqueezeMode.t;
  mem_block_start_pct : float; (* % dead zone at the START of an element *)
  mem_block_end_pct : float    (* % dead zone at the END of an element *)
}.

(** [KeyerConfig.__init__]: stores its six arguments. *)
Definition KeyerConfig_init (wpm : float) (iambic_mode : IambicMode.t)
    (memory_mode : MemoryMode.t) (squeeze_mode : SqueezeMode.t)
    (mem_block_start_pct mem_block_end_pct : float) : result KeyerConfig :=
  Ok {| wpm := wpm;
        iambic_mode := iambic_mode;
        memory_mode := memory_mode;
        squeeze_mode := squeeze_mode;
        mem_block_start_pct := mem_block_start_pct;
        mem_block_end_pct := mem_block_end_pct |}.

(** The keyword defaults of [KeyerConfig.__init__]. *)
Definition KeyerConfig_defaults : result KeyerConfig :=
  KeyerConfig_init 20 IambicMode.B MemoryMode.DOT_AND_DAH SqueezeMode.LIVE 15 15.

Definition dit_duration_ms (self : KeyerConfig) : result float :=
  py_truediv 1200 (wpm self).

Definition dah_duration_ms (self : KeyerConfig) : result float :=
  match dit_duration_ms self with
  | Ok d => Ok (3 * d)
  | Raise e => Raise e
  end.

Definition gap_duration_ms (self : KeyerConfig) : result float :=
  dit_duration_ms self.

(* ================================================================== *)
(** * Runtime of the FSM *)
(* ================================================================== *)

Record KeyerRuntime : Set := {
  cfg : KeyerConfig;
  state : State.t;
  current_element : option Element.t;
  current_element_total_ms : float;
  current_element_elapsed_ms : float;
  gap_total_ms : float;
  gap_elapsed_ms : float;
  element_progress_pct : float;
  queue : list Element.t;           (* deque: append at the end, popleft at the head *)
  dot_requested : bool;
  dah_requested : bool;
  dit_pressed : bool;
  dah_pressed : bool;
  squeeze_seen_this_element : bool;
  last_valid_combo : PaddleCombo.t
}.

(** [KeyerRuntime.__init__]. *)
Definition KeyerRuntime_init (c : KeyerConfig) : KeyerRuntime :=
  {| cfg := c;
     state := State.IDLE;
     current_element := None;
     current_element_total_ms := 0;
     current_element_elapsed_ms := 0;
     gap_total_ms := 0;
     gap_elapsed_ms := 0;
     element_progress_pct := 0;
     queue := [];
     dot_requested := false;
     dah_requested := false;
     dit_pressed := false;
     dah_pressed := false;
     squeeze_seen_this_element := false;
     last_valid_combo := PaddleCombo.NONE |}.

(** Attribute assignment [self.f = v], one function per assigned field. *)
Definition set_state (v : State.t) (s : KeyerRuntime) : KeyerRuntime :=
  {| cfg := cfg s; state := v; current_element := current_element s;
     current_element_total_ms := current_element_total_ms s;
     current_element_elapsed_ms := current_element_elapsed_ms s;
     gap_total_ms := gap_total_ms s; gap_elapsed_ms := gap_elapsed_ms s;
     element_progress_pct := element_progress_pct s; queue := queue s;
     dot_requested := dot_requested s; dah_requested := dah_requested s;
     dit_pressed := dit_pressed s; dah_pressed := dah_pressed s;
     squeeze_seen_this_element := squeeze_seen_this_element s;
     last_valid_combo := last_valid_combo s |}.

Definition set_current_element (v : option Element.t) (s : KeyerRuntime) : KeyerRuntime :=
  {| cfg := cfg s; state := state s; current_element := v;
     current_element_total_ms := current_element_total_ms s;
     current_element_elapsed_ms := current_element_elapsed_ms s;
     gap_total_ms := gap_total_ms s; gap_elapsed_ms := gap_elapsed_ms s;
     element_progress_pct := element_progress_pct s; queue := queue s;
     dot_requested := dot_requested s; dah_requested := dah_requested s;
     dit_pressed := dit_pressed s; dah_pressed := dah_pressed s;
     squeeze_seen_this_element := squeeze_seen_this_element s;
     last_valid_combo := last_valid_combo s |}.

Definition set_current_element_total_ms (v : float) (s : KeyerRuntime) : KeyerRuntime :=
  {| cfg := cfg s; state := state s; current_element := current_element s;
     current_element_total_ms := v;
     current_element_elapsed_ms := current_element_elapsed_ms s;
     gap_total_ms := gap_total_ms s; gap_elapsed_ms := gap_elapsed_ms s;
     element_progress_pct := element_progress_pct s; queue := queue s;
     dot_requested := dot_requested s; dah_requested := dah_requested s;
     dit_pressed := dit_pressed s; dah_pressed := dah_pressed s;
     squeeze_seen_this_element := squeeze_seen_this_element s;
     last_valid_combo := last_valid_combo s |}.

Definition set_current_element_elapsed_ms (v : float) (s : KeyerRuntime) : KeyerRuntime :=
  {| cfg := cfg s; state := state s; current_element := current_element s;
     current_element_total_ms := current_element_total_ms s;
     current_element_elapsed_ms := v;
     gap_total_ms := gap_total_ms s; gap_elapsed_ms := gap_elapsed_ms s;
     element_progress_pct := element_progress_pct s; queue := queue s;
     dot_requested := dot_requested s; dah_requested := dah_requested s;
     dit_pressed := dit_pressed s; dah_pressed := dah_pressed s;
     squeeze_seen_this_element := squeeze_seen_this_element s;
     last_valid_combo := last_valid_combo s |}.

Definition set_gap_total_ms (v : float) (s : KeyerRuntime) : KeyerRuntime :=
  {| cfg := cfg s; state := state s; current_element := current_element s;
     current_element_total_ms := current_element_total_ms s;
     current_element_elapsed_ms := current_element_elapsed_ms s;
     gap_total_ms := v; gap_elapsed_ms := gap_elapsed_ms s;
     element_progress_pct := element_progress_pct s; queue := queue s;
     dot_requested := dot_requested s; dah_requested := dah_requested s;
     dit_pressed := dit_pressed s; dah_pressed := dah_pressed s;
     squeeze_seen_this_element := squeeze_seen_this_element s;
     last_valid_combo := last_valid_combo s |}.

Definition set_gap_elapsed_ms (v : float) (s : KeyerRuntime) : KeyerRuntime :=
  {| cfg := cfg s; state := state s; current_element := current_element s;
     current_element_total_ms := current_element_total_ms s;
     current_element_elapsed_ms := current_element_elapsed_ms s;
     gap_total_ms := gap_total_ms s; gap_elapsed_ms := v;
     element_progress_pct := element_progress_pct s; queue := queue s;
     dot_requested := dot_requested s; dah_requested := dah_requested s;
     dit_pressed := dit_pressed s; dah_pressed := dah_pressed s;
     squeeze_seen_this_element := squeeze_seen_this_element s;
     last_valid_combo := last_valid_combo s |}.

Definition set_element_progress_pct (v : float) (s : KeyerRuntime) : KeyerRuntime :=
  {| cfg := cfg s; state := state s; current_element := current_element s;
     current_element_total_ms := current_element_total_ms s;
     current_element_elapsed_ms := current_element_elapsed_ms s;
     gap_total_ms := gap_total_ms s; gap_elapsed_ms := gap_elapsed_ms s;
     element_progress_pct := v; queue := queue s;
     dot_requested := dot_requested s; dah_requested := dah_requested s;
     dit_pressed := dit_pressed s; dah_pressed := dah_pressed s;
     squeeze_seen_this_element := squeeze_seen_this_element s;
     last_valid_combo := last_valid_combo s |}.

Definition set_queue (v : list Element.t) (s : KeyerRuntime) : KeyerRuntime :=
  {| cfg := cfg s; state := state s; current_element := current_element s;
     current_element_total_ms := current_element_total_ms s;
     current_element_elapsed_ms := current_element_elapsed_ms s;
     gap_total_ms := gap_total_ms s; gap_elapsed_ms := gap_elapsed_ms s;
     element_progress_pct := element_progress_pct s; queue := v;
     dot_requested := dot_requested s; dah_requested := dah_requested s;
     dit_pressed := dit_pressed s; dah_pressed := dah_pressed s;
     squeeze_seen_this_element := squeeze_seen_this_element s;
     last_valid_combo := last_valid_combo s |}.

Definition set_dot_requested (v : bool) (s : KeyerRuntime) : KeyerRuntime :=
  {| cfg := cfg s; state := state s; current_element := current_element s;
     current_element_total_ms := current_element_total_ms s;
     current_element_elapsed_ms := current_element_elapsed_ms s;
     gap_total_ms := gap_total_ms s; gap_elapsed_ms := gap_elapsed_ms s;
     element_progress_pct := element_progress_pct s; queue := queue s;
     dot_requested := v; dah_requested := dah_requested s;
     dit_pressed := dit_pressed s; dah_pressed := dah_pressed s;
     squeeze_seen_this_element := squeeze_seen_this_element s;
     last_valid_combo := last_valid_combo s |}.

Definition set_dah_requested (v : bool) (s : KeyerRuntime) : KeyerRuntime :=
  {| cfg := cfg s; state := state s; current_element := current_element s;
     current_element_total_ms := current_element_total_ms s;
     current_element_elapsed_ms := current_element_elapsed_ms s;
     gap_total_ms := gap_total_ms s; gap_elapsed_ms := gap_elapsed_ms s;
     element_progress_pct := element_progress_pct s; queue := queue s;
     dot_requested := dot_requested s; dah_requested := v;
     dit_pressed := dit_pressed s; dah_pressed := dah_pressed s;
     squeeze_seen_this_element := squeeze_seen_this_element s;
     last_valid_combo := last_valid_combo s |}.

Definition set_dit_pressed (v : bool) (s : KeyerRuntime) : KeyerRuntime :=
  {| cfg := cfg s; state := state s; current_element := current_element s;
     current_element_total_ms := current_element_total_ms s;
     current_element_elapsed_ms := current_element_elapsed_ms s;
     gap_total_ms := gap_total_ms s; gap_elapsed_ms := gap_elapsed_ms s;
     element_progress_pct := element_progress_pct s; queue := queue s;
     dot_requested := dot_requested s; dah_requested := dah_requested s;
     dit_pressed := v; dah_pressed := dah_pressed s;
     squeeze_seen_this_element := squeeze_seen_this_element s;
     last_valid_combo := last_valid_combo s |}.

Definition set_dah_pressed (v : bool) (s : KeyerRuntime) : KeyerRuntime :=
  {| cfg := cfg s; state := state s; current_element := current_element s;
     current_element_total_ms := current_element_total_ms s;
     current_element_elapsed_ms := current_element_elapsed_ms s;
     gap_total_ms := gap_total_ms s; gap_elapsed_ms := gap_elapsed_ms s;
     element_progress_pct := element_progress_pct s; queue := queue s;
     dot_requested := dot_requested s; dah_requested := dah_requested s;
     dit_pressed := dit_pressed s; dah_pressed := v;
     squeeze_seen_this_element := squeeze_seen_this_element s;
     last_valid_combo := last_valid_combo s |}.

Definition set_squeeze_seen_this_element (v : bool) (s : KeyerRuntime) : KeyerRuntime :=
  {| cfg := cfg s; state := state s; current_element := current_element s;
     current_element_total_ms := current_element_total_ms s;
     current_element_elapsed_ms := current_element_elapsed_ms s;
     gap_total_ms := gap_total_ms s; gap_elapsed_ms := gap_elapsed_ms s;
     element_progress_pct := element_progress_pct s; queue := queue s;
     dot_requested := dot_requested s; dah_requested := dah_requested s;
     dit_pressed := dit_pressed s; dah_pressed := dah_pressed s;
     squeeze_seen_this_element := v;
     last_valid_combo := last_valid_combo s |}.

Definition set_last_valid_combo (v : PaddleCombo.t) (s : KeyerRuntime) : KeyerRuntime :=
  {| cfg := cfg s; state := state s; current_element := current_element s;
     current_element_total_ms := current_element_total_ms s;
     current_element_elapsed_ms := current_element_elapsed_ms s;
     gap_total_ms := gap_total_ms s; gap_elapsed_ms := gap_elapsed_ms s;
     element_progress_pct := element_progress_pct s; queue := queue s;
     dot_requested := dot_requested s; dah_requested := dah_requested s;
     dit_pressed := dit_pressed s; dah_pressed := dah_pressed s;
     squeeze_seen_this_element := squeeze_seen_this_element s;
     last_valid_combo := v |}.

(* ------------------------------------------------------------------ *)
(** ** Methods as state transformers that may raise *)
(* ------------------------------------------------------------------ *)

(** A method body: from [self] before to the outcome and [self] after.  On
    [Raise] the second component holds the assignments done before the
    exception. *)
Definition M (A : Type) : Type := KeyerRuntime -> result A * KeyerRuntime.

Definition ret {A : Type} (a : A) : M A := fun s => (Ok a, s).

Definition bind {A B : Type} (m : M A) (k : A -> M B) : M B :=
  fun s =>
    match m s with
    | (Ok a, s') => k a s'
    | (Raise e, s') => (Raise e, s')
    end.

(** Read [self]. *)
Definition self_ : M KeyerRuntime := fun s => (Ok s, s).

(** Assign one attribute of [self]. *)
Definition assign (f : KeyerRuntime -> KeyerRuntime) : M unit :=
  fun s => (Ok tt, f s).

(** Evaluate an expression that may raise. *)
Definition eval {A : Type} (r : result A) : M A := fun s => (r, s).

Definition pass : M unit := ret tt.

Declare Scope py_scope.
Delimit Scope py_scope with py.
Notation "x <- m ;; k" := (bind m (fun x => k))
  (at level 61, m at next level, right associativity) : py_scope.
Notation "m ;; k" := (bind m (fun _ => k))
  (at level 61, right associativity) : py_scope.
Local Open Scope py_scope.

(** [get_combo_now]: reads the two paddle attributes only. *)
Definition get_combo_now (self : KeyerRuntime) : PaddleCombo.t :=
  if dit_pressed self && dah_pressed self then PaddleCombo.BOTH
  else if dit_pressed self && negb (dah_pressed self) then PaddleCombo.DIT_ONLY
  else if dah_pressed self && negb (dit_pressed self) then PaddleCombo.DAH_ONLY
  else PaddleCombo.NONE.

Definition update_paddles (dit dah : bool) : M unit :=
  self <- self_ ;;
  let prev_combo := get_combo_now self in
  assign (set_dit_pressed dit) ;;
  assign (set_dah_pressed dah) ;;
  self <- self_ ;;
  let new_combo := get_combo_now self in
  if SqueezeMode.eqb (squeeze_mode (cfg self)) SqueezeMode.SNAPSHOT then
    if negb (PaddleCombo.eqb prev_combo new_combo) then
      assign (set_last_valid_combo prev_combo)
    else pass
  else
    assign (set_last_valid_combo new_combo).

Definition _start_element (element : Element.t) : M unit :=
  assign (set_current_element (Some element)) ;;
  self <- self_ ;;
  (if Element.eqb element Element.DIT then
     d <- eval (dit_duration_ms (cfg self)) ;;
     assign (set_current_element_total_ms d) ;;
     assign (set_state State.SEND_DIT)
   else
     d <- eval (dah_duration_ms (cfg self)) ;;
     assign (set_current_element_total_ms d) ;;
     assign (set_state State.SEND_DAH)) ;;
  assign (set_current_element_elapsed_ms 0) ;;
  assign (set_element_progress_pct 0) ;;
  assign (set_squeeze_seen_this_element false).

Definition _start_gap : M unit :=
  self <- self_ ;;
  d <- eval (gap_duration_ms (cfg self)) ;;
  assign (set_gap_total_ms d) ;;
  assign (set_gap_elapsed_ms 0) ;;
  assign (set_state State.INTER_ELEMENT_GAP).

(** [self.queue.append(e)] *)
Definition queue_append (e : Element.t) : M unit :=
  self <- self_ ;;
  assign (set_queue (queue self ++ [e])).

(** [self.queue.clear()] *)
Definition queue_clear : M unit := assign (set_queue []).

Definition _check_memory_and_squeeze_during_element : M unit :=
  (* progress of the current element, in percent *)
  self <- self_ ;;
  (if 0 <? current_element_total_ms self then
     p <- eval (py_truediv (100 * current_element_elapsed_ms self)
                           (current_element_total_ms self)) ;;
     assign (set_element_progress_pct p)
   else
     assign (set_element_progress_pct 0)) ;;
  self <- self_ ;;
  let combo := get_combo_now self in
  (* squeeze seen at least once during the element *)
  (if PaddleCombo.eqb combo PaddleCombo.BOTH then
     assign (set_squeeze_seen_this_element true)
   else pass) ;;
  (* memory disabled: return *)
  if MemoryMode.eqb (memory_mode (cfg self)) MemoryMode.NONE then ret tt
  else
    let left_ok := mem_block_start_pct (cfg self) <=? element_progress_pct self in
    let right_ok := element_progress_pct self <=? 100 - mem_block_end_pct (cfg self) in
    let mem_window_ok := left_ok && right_ok in
    if negb mem_window_ok then ret tt
    else
      (* while sending DIT, DAH can be latched *)
      (if State.eqb (state self) State.SEND_DIT then
         if in_tuple PaddleCombo.eqb combo [PaddleCombo.DAH_ONLY; PaddleCombo.BOTH] then
           if in_tuple MemoryMode.eqb (memory_mode (cfg self))
                [MemoryMode.DAH_ONLY; MemoryMode.DOT_AND_DAH] then
             assign (set_dah_requested true)
           else pass
         else pass
       else pass) ;;
      (* while sending DAH, DIT can be latched *)
      (if State.eqb (state self) State.SEND_DAH then
         if in_tuple PaddleCombo.eqb combo [PaddleCombo.DIT_ONLY; PaddleCombo.BOTH] then
           if in_tuple MemoryMode.eqb (memory_mode (cfg self))
                [MemoryMode.DOT_ONLY; MemoryMode.DOT_AND_DAH] then
             assign (set_dot_requested true)
           else pass
         else pass
       else pass).

Definition _finish_element_and_enter_gap : M unit :=
  self <- self_ ;;
  (* MODE B: bonus element *)
  let bonus_element :=
    if IambicMode.eqb (iambic_mode (cfg self)) IambicMode.B then
      let ref_combo :=
        if SqueezeMode.eqb (squeeze_mode (cfg self)) SqueezeMode.LIVE
        then get_combo_now self
        else last_valid_combo self in
      if squeeze_seen_this_element self
         && negb (PaddleCombo.eqb ref_combo PaddleCombo.BOTH) then
        if opt_element_is (current_element self) Element.DIT
        then Some Element.DAH
        else Some Element.DIT
      else None
    else None in
  (* MEMORY *)
  (if dot_requested self then
     queue_append Element.DIT ;;
     assign (set_dot_requested false)
   else pass) ;;
  (if dah_requested self then
     queue_append Element.DAH ;;
     assign (set_dah_requested false)
   else pass) ;;
  (* the Mode B bonus goes after the memory *)
  (match bonus_element with
   | Some b => queue_append b
   | None => pass
   end) ;;
  _start_gap.

Definition tick (dt_ms : float) : M unit :=
  self <- self_ ;;
  if State.eqb (state self) State.IDLE then
    let combo := get_combo_now self in
    if PaddleCombo.eqb combo PaddleCombo.DIT_ONLY then
      _start_element Element.DIT
    else if PaddleCombo.eqb combo PaddleCombo.DAH_ONLY then
      _start_element Element.DAH
    else if PaddleCombo.eqb combo PaddleCombo.BOTH then
      _start_element Element.DIT
    else
      pass
  else if in_tuple State.eqb (state self) [State.SEND_DIT; State.SEND_DAH] then
    assign (set_current_element_elapsed_ms (current_element_elapsed_ms self + dt_ms)) ;;
    self <- self_ ;;
    if current_element_elapsed_ms self <? current_element_total_ms self then
      _check_memory_and_squeeze_during_element
    else
      _finish_element_and_enter_gap
  else if State.eqb (state self) State.INTER_ELEMENT_GAP then
    assign (set_gap_elapsed_ms (gap_elapsed_ms self + dt_ms)) ;;
    self <- self_ ;;
    if gap_elapsed_ms self <? gap_total_ms self then
      pass
    else
      next_elem <-
        match queue self with
        | e :: rest =>
            (* 1) something queued: popleft *)
            assign (set_queue rest) ;;
            ret (Some e)
        | [] =>
            (* 2) nothing queued: look at the paddles now *)
            let combo := get_combo_now self in
            if PaddleCombo.eqb combo PaddleCombo.DIT_ONLY then
              ret (Some Element.DIT)
            else if PaddleCombo.eqb combo PaddleCombo.DAH_ONLY then
              ret (Some Element.DAH)
            else if PaddleCombo.eqb combo PaddleCombo.BOTH then
              if opt_element_is (current_element self) Element.DIT
              then ret (Some Element.DAH)
              else ret (Some Element.DIT)
            else
              ret None
        end ;;
      match next_elem with
      | Some e => _start_element e
      | None =>
          assign (set_state State.IDLE) ;;
          assign (set_current_element None) ;;
          assign (set_current_element_total_ms 0) ;;
          assign (set_current_element_elapsed_ms 0) ;;
          assign (set_gap_total_ms 0) ;;
          assign (set_gap_elapsed_ms 0) ;;
          assign (set_element_progress_pct 0) ;;
          assign (set_squeeze_seen_this_element false) ;;
          queue_clear
      end
  else
    (* safety fallback; no fifth member of [State] exists *)
    assign (set_state State.IDLE) ;;
    queue_clear ;;
    assign (set_current_element None) ;;
    assign (set_current_element_elapsed_ms 0) ;;
    assign (set_current_element_total_ms 0) ;;
    assign (set_gap_elapsed_ms 0) ;;
    assign (set_gap_total_ms 0) ;;
    assign (set_squeeze_seen_this_element false) ;;
    assign (set_element_progress_pct 0).

(* ------------------------------------------------------------------ *)
(** ** The host: any sequence of calls on one runtime *)
(* ------------------------------------------------------------------ *)

Inductive call : Set :=
| UpdatePaddles (dit dah : bool)
| Tick (dt_ms : float).

Definition do_call (c : call) : M unit :=
  match c with
  | UpdatePaddles dit dah => update_paddles dit dah
  | Tick dt_ms => tick dt_ms
  end.

(** The object after a call, whether the call returned or raised. *)
Definition after {A : Type} (m : M A) (s : KeyerRuntime) : KeyerRuntime := snd (m s).

(** The object after a sequence of calls; a host that catches an exception
    goes on with the object as the failed call left it. *)
Fixpoint run_calls (cs : list call) (s : KeyerRuntime) : KeyerRuntime :=
  match cs with
  | [] => s
  | c :: cs' => run_calls cs' (after (do_call c) s)
  end.

(** Every object a host can hold: a fresh runtime put through calls. *)
Inductive reachable (c : KeyerConfig) : KeyerRuntime -> Prop :=
| reach_init : reachable c (KeyerRuntime_init c)
| reach_call (k : call) (s : KeyerRuntime) :
    reachable c s -> reachable c (after (do_call k) s).

(* ================================================================== *)
(** * Vocabulary of the statements *)
(* ================================================================== *)

(** ** Elements *)

(** The state in which an element is sent. *)
Definition send_state (e : Element.t) : State.t :=
  match e with
  | Element.DIT => State.SEND_DIT
  | Element.DAH => State.SEND_DAH
  end.

(** The duration the timing model gives an element. *)
Definition element_duration_ms (c : KeyerConfig) (e : Element.t) : result float :=
  match e with
  | Element.DIT => dit_duration_ms c
  | Element.DAH => dah_duration_ms c
  end.

(** DIT <-> DAH. *)
Definition opposite (e : Element.t) : Element.t :=
  match e with
  | Element.DIT => Element.DAH
  | Element.DAH => Element.DIT
  end.

(** ** The object each method leaves behind

    One record per method, field by field; the lemmas [*_run] below prove
    that the method computes it. *)

(** After [_start_element e] has returned, [d] being the element's
    duration: the element is current, its counters are zeroed and
    squeeze_seen_this_element is reset; the latches, the queue, the gap
    counters and the paddles are as they were. *)
Definition started (e : Element.t) (d : float) (s : KeyerRuntime) : KeyerRuntime :=
  {| cfg := cfg s; state := send_state e; current_element := Some e;
     current_element_total_ms := d;
     current_element_elapsed_ms := 0;
     gap_total_ms := gap_total_ms s; gap_elapsed_ms := gap_elapsed_ms s;
     element_progress_pct := 0; queue := queue s;
     dot_requested := dot_requested s; dah_requested := dah_requested s;
     dit_pressed := dit_pressed s; dah_pressed := dah_pressed s;
     squeeze_seen_this_element := false;
     last_valid_combo := last_valid_combo s |}.

(** The combo the Mode-B rule looks at: the live one under LIVE,
    last_valid_combo under SNAPSHOT. *)
Definition reference_combo (s : KeyerRuntime) : PaddleCombo.t :=
  match squeeze_mode (cfg s) with
  | SqueezeMode.LIVE => get_combo_now s
  | SqueezeMode.SNAPSHOT => last_valid_combo s
  end.

(** The Mode-B rule: Mode B, a squeeze seen during the element, and the
    reference combo no longer BOTH. *)
Definition bonus_due (s : KeyerRuntime) : bool :=
  IambicMode.eqb (iambic_mode (cfg s)) IambicMode.B
  && squeeze_seen_this_element s
  && negb (PaddleCombo.eqb (reference_combo s) PaddleCombo.BOTH).

(** The memory-derived elements of a completion: DIT, then DAH. *)
Definition latched (s : KeyerRuntime) : list Element.t :=
  (if dot_requested s then [Element.DIT] else [])
  ++ (if dah_requested s then [Element.DAH] else []).

(** The bonus of a completion: none, or the one element the code picks
    (DAH when current_element is DIT, DIT otherwise). *)
Definition bonus (s : KeyerRuntime) : list Element.t :=
  if bonus_due s then
    [if opt_element_is (current_element s) Element.DIT
     then Element.DAH else Element.DIT]
  else [].

(** When [_finish_element_and_enter_gap] reaches its call of [_start_gap]:
    the queue has grown by the latched elements and then the bonus, and
    both latches are clear. *)
Definition enqueued (s : KeyerRuntime) : KeyerRuntime :=
  {| cfg := cfg s; state := state s; current_element := current_element s;
     current_element_total_ms := current_element_total_ms s;
     current_element_elapsed_ms := current_element_elapsed_ms s;
     gap_total_ms := gap_total_ms s; gap_elapsed_ms := gap_elapsed_ms s;
     element_progress_pct := element_progress_pct s;
     queue := (queue s ++ latched s) ++ bonus s;
     dot_requested := false; dah_requested := false;
     dit_pressed := dit_pressed s; dah_pressed := dah_pressed s;
     squeeze_seen_this_element := squeeze_seen_this_element s;
     last_valid_combo := last_valid_combo s |}.

(** Progress of the current element, in percent. *)
Definition progress_of (s : KeyerRuntime) : float :=
  if 0 <? current_element_total_ms s
  then 100 * current_element_elapsed_ms s / current_element_total_ms s
  else 0.

(** The valid window [mem_block_start_pct, 100 - mem_block_end_pct]. *)
Definition in_window (c : KeyerConfig) (p : float) : bool :=
  (mem_block_start_pct c <=? p) && (p <=? 100 - mem_block_end_pct c).

(** The memory modes that permit the DAH latch, and the DIT latch. *)
Definition permits_dah (m : MemoryMode.t) : bool :=
  match m with
  | MemoryMode.DAH_ONLY | MemoryMode.DOT_AND_DAH => true
  | _ => false
  end.

Definition permits_dot (m : MemoryMode.t) : bool :=
  match m with
  | MemoryMode.DOT_ONLY | MemoryMode.DOT_AND_DAH => true
  | _ => false
  end.

(** The combos in which the dah paddle, and the dit paddle, is down. *)
Definition includes_dah (k : PaddleCombo.t) : bool :=
  match k with
  | PaddleCombo.DAH_ONLY | PaddleCombo.BOTH => true
  | _ => false
  end.

Definition includes_dit (k : PaddleCombo.t) : bool :=
  match k with
  | PaddleCombo.DIT_ONLY | PaddleCombo.BOTH => true
  | _ => false
  end.

(** After [_check_memory_and_squeeze_during_element] has returned. *)
Definition checked (s : KeyerRuntime) : KeyerRuntime :=
  let p := progress_of s in
  let k := get_combo_now s in
  {| cfg := cfg s; state := state s; current_element := current_element s;
     current_element_total_ms := current_element_total_ms s;
     current_element_elapsed_ms := current_element_elapsed_ms s;
     gap_total_ms := gap_total_ms s; gap_elapsed_ms := gap_elapsed_ms s;
     element_progress_pct := p; queue := queue s;
     dot_requested :=
       dot_requested s
       || (State.eqb (state s) State.SEND_DAH && includes_dit k
           && permits_dot (memory_mode (cfg s)) && in_window (cfg s) p);
     dah_requested :=
       dah_requested s
       || (State.eqb (state s) State.SEND_DIT && includes_dah k
           && permits_dah (memory_mode (cfg s)) && in_window (cfg s) p);
     dit_pressed := dit_pressed s; dah_pressed := dah_pressed s;
     squeeze_seen_this_element :=
       squeeze_seen_this_element s || PaddleCombo.eqb k PaddleCombo.BOTH;
     last_valid_combo := last_valid_combo s |}.

(** After [update_paddles dit dah] has returned. *)
Definition paddles_updated (dit dah : bool) (s : KeyerRuntime) : KeyerRuntime :=
  let prev_combo := get_combo_now s in
  let new_combo := get_combo_now (set_dah_pressed dah (set_dit_pressed dit s)) in
  {| cfg := cfg s; state := state s; current_element := current_element s;
     current_element_total_ms := current_element_total_ms s;
     current_element_elapsed_ms := current_element_elapsed_ms s;
     gap_total_ms := gap_total_ms s; gap_elapsed_ms := gap_elapsed_ms s;
     element_progress_pct := element_progress_pct s; queue := queue s;
     dot_requested := dot_requested s; dah_requested := dah_requested s;
     dit_pressed := dit; dah_pressed := dah;
     squeeze_seen_this_element := squeeze_seen_this_element s;
     last_valid_combo :=
       match squeeze_mode (cfg s) with
       | SqueezeMode.SNAPSHOT =>
           if PaddleCombo.eqb prev_combo new_combo
           then last_valid_combo s else prev_combo
       | SqueezeMode.LIVE => new_combo
       end |}.

(** The element the paddles select when a gap ends on an empty queue. *)
Definition next_from_paddles (s : KeyerRuntime) : option Element.t :=
  match get_combo_now s with
  | PaddleCombo.DIT_ONLY => Some Element.DIT
  | PaddleCombo.DAH_ONLY => Some Element.DAH
  | PaddleCombo.BOTH =>
      if opt_element_is (current_element s) Element.DIT
      then Some Element.DAH else Some Element.DIT
  | PaddleCombo.NONE => None
  end.

(** After the clean return to IDLE: the fields the code resets are reset;
    the latches, the paddles and last_valid_combo are as they were. *)
Definition idled (s : KeyerRuntime) : KeyerRuntime :=
  {| cfg := cfg s; state := State.IDLE; current_element := None;
     current_element_total_ms := 0; current_element_elapsed_ms := 0;
     gap_total_ms := 0; gap_elapsed_ms := 0;
     element_progress_pct := 0; queue := [];
     dot_requested := dot_requested s; dah_requested := dah_requested s;
     dit_pressed := dit_pressed s; dah_pressed := dah_pressed s;
     squeeze_seen_this_element := false;
     last_valid_combo := last_valid_combo s |}.

(** ** What holds of every object a host can hold *)

Record inv (c : KeyerConfig) (s : KeyerRuntime) : Prop := {
  (* the config is never reassigned *)
  inv_cfg : cfg s = c;
  (* an element can only have started if the durations do not raise *)
  inv_wpm : state s <> State.IDLE -> (wpm c =? 0) = false;
  (* current_element is the element being sent, or the one just sent *)
  inv_elem :
    match state s with
    | State.SEND_DIT => current_element s = Some Element.DIT
    | State.SEND_DAH => current_element s = Some Element.DAH
    | State.INTER_ELEMENT_GAP => current_element s <> None
    | State.IDLE => True
    end;
  (* latches are set during an element and consumed at its completion *)
  inv_latch :
    state s = State.IDLE \/ state s = State.INTER_ELEMENT_GAP ->
    dot_requested s = false /\ dah_requested s = false;
  inv_idle_queue : state s = State.IDLE -> queue s = [];
  (* LIVE: last_valid_combo mirrors the paddles *)
  inv_live :
    squeeze_mode c = SqueezeMode.LIVE -> last_valid_combo s = get_combo_now s;
  inv_nomem :
    memory_mode c = MemoryMode.NONE ->
    dot_requested s = false /\ dah_requested s = false
}.

(** ** Concrete configurations and sessions *)

(** The configuration [KeyerConfig()] builds: 20 wpm, Mode B, full memory,
    LIVE squeeze, 15% dead zones. *)
Definition default_cfg : KeyerConfig :=
  {| wpm := 20; iambic_mode := IambicMode.B;
     memory_mode := MemoryMode.DOT_AND_DAH; squeeze_mode := SqueezeMode.LIVE;
     mem_block_start_pct := 15; mem_block_end_pct := 15 |}.

Definition with_squeeze_mode (m : SqueezeMode.t) (c : KeyerConfig) : KeyerConfig :=
  {| wpm := wpm c; iambic_mode := iambic_mode c; memory_mode := memory_mode c;
     squeeze_mode := m; mem_block_start_pct := mem_block_start_pct c;
     mem_block_end_pct := mem_block_end_pct c |}.

Definition with_memory_mode (m : MemoryMode.t) (c : KeyerConfig) : KeyerConfig :=
  {| wpm := wpm c; iambic_mode := iambic_mode c; memory_mode := m;
     squeeze_mode := squeeze_mode c; mem_block_start_pct := mem_block_start_pct c;
     mem_block_end_pct := mem_block_end_pct c |}.

Definition with_iambic_mode (m : IambicMode.t) (c : KeyerConfig) : KeyerConfig :=
  {| wpm := wpm c; iambic_mode := m; memory_mode := memory_mode c;
     squeeze_mode := squeeze_mode c; mem_block_start_pct := mem_block_start_pct c;
     mem_block_end_pct := mem_block_end_pct c |}.

Definition snapshot_cfg : KeyerConfig :=
  with_squeeze_mode SqueezeMode.SNAPSHOT default_cfg.

Definition no_memory_cfg : KeyerConfig :=
  with_memory_mode MemoryMode.NONE default_cfg.

Definition mode_a_cfg : KeyerConfig :=
  with_iambic_mode IambicMode.A default_cfg.

(** A session: the calls of a host on a fresh runtime. *)
Definition session (c : KeyerConfig) (cs : list call) : KeyerRuntime :=
  run_calls cs (KeyerRuntime_init c).

(** Squeeze from rest, the DIT (60 ms) starts; the squeeze is seen at 30 ms
    (50%, inside the window) and released before the DIT ends. *)
Definition squeeze_then_release : list call :=
  [UpdatePaddles true true; Tick 1; Tick 30; UpdatePaddles false false].

Definition squeeze_released_mid_dit : KeyerRuntime :=
  session default_cfg squeeze_then_release.

(** The same, at the end of the DIT: in the gap, with two elements queued. *)
Definition gap_with_queued_dah : KeyerRuntime :=
  session default_cfg (squeeze_then_release ++ [Tick 30]).

Definition no_memory_squeeze_released : KeyerRuntime :=
  session no_memory_cfg squeeze_then_release.

Definition mode_a_squeeze_released : KeyerRuntime :=
  session mode_a_cfg squeeze_then_release.

(** One dit is keyed and the paddle is released during the gap; the gap
    then ends with combo NONE and an empty queue. *)
Definition dit_then_release : list call :=
  [UpdatePaddles true false; Tick 1; Tick 60; UpdatePaddles false false].

Definition snapshot_dit_released : KeyerRuntime :=
  session snapshot_cfg dit_then_release.

Definition live_dit_released : KeyerRuntime :=
  session default_cfg dit_then_release.

(** ** More of what holds of every object a host can hold *)

Record shape (c : KeyerConfig) (s : KeyerRuntime) : Prop := {
  (* only the latch of the opposite element can be set during an element *)
  shape_latch :
    match state s with
    | State.SEND_DIT => dot_requested s = false
    | State.SEND_DAH => dah_requested s = false
    | _ => dot_requested s = false /\ dah_requested s = false
    end;
  (* the totals are those of the timing model *)
  shape_total :
    match state s with
    | State.SEND_DIT => current_element_total_ms s = 1200 / wpm c
    | State.SEND_DAH => current_element_total_ms s = 3 * (1200 / wpm c)
    | State.INTER_ELEMENT_GAP => gap_total_ms s = 1200 / wpm c
    | State.IDLE => True
    end;
  (* an element being sent has just started or is below its total *)
  shape_running :
    state s = State.SEND_DIT \/ state s = State.SEND_DAH ->
    current_element_elapsed_ms s = 0 \/
    (current_element_elapsed_ms s <? current_element_total_ms s) = true;
  (* IDLE is clean, unless a start has raised *)
  shape_idle :
    state s = State.IDLE -> (wpm c =? 0) = false ->
    current_element s = None /\
    current_element_total_ms s = 0 /\ current_element_elapsed_ms s = 0 /\
    gap_total_ms s = 0 /\ gap_elapsed_ms s = 0 /\
    element_progress_pct s = 0 /\ squeeze_seen_this_element s = false
}.

(** The combo of two paddle booleans, as [get_combo_now] classifies the
    stored ones. *)
Definition combo_of (dit dah : bool) : PaddleCombo.t :=
  get_combo_now (set_dah_pressed dah (set_dit_pressed dit
                   (KeyerRuntime_init default_cfg))).

(** A fresh runtime with the paddles and last_valid_combo of [s]. *)
Definition fresh_with_paddles_of (c : KeyerConfig) (s : KeyerRuntime) : KeyerRuntime :=
  set_last_valid_combo (last_valid_combo s)
    (set_dah_pressed (dah_pressed s)
       (set_dit_pressed (dit_pressed s) (KeyerRuntime_init c))).

(** One round of a host that, at each element, squeezes 30 ms into it and
    lets go before it ends: the gap ends, the next element starts, the
    squeeze is seen, released, and the element completes. *)
Definition pump : list call :=
  [Tick 60; UpdatePaddles true true; Tick 30; UpdatePaddles false false; Tick 200].

Fixpoint pumps (n : nat) : list call :=
  match n with
  | O => []
  | S n' => pump ++ pumps n'
  end.

(** A runtime in the gap from which [pump] can run at 20 wpm. *)
Definition pumpable (s : KeyerRuntime) : Prop :=
  cfg s = default_cfg /\
  state s = State.INTER_ELEMENT_GAP /\
  gap_total_ms s = 60 /\ gap_elapsed_ms s = 0 /\
  dot_requested s = false /\ dah_requested s = false /\
  dit_pressed s = false /\ dah_pressed s = false /\
  queue s <> [].

Definition wpm_zero_cfg : KeyerConfig :=
  {| wpm := 0; iambic_mode := IambicMode.B;
     memory_mode := MemoryMode.DOT_AND_DAH; squeeze_mode := SqueezeMode.LIVE;
     mem_block_start_pct := 15; mem_block_end_pct := 15 |}.

Definition plain_cfg : KeyerConfig :=
  with_memory_mode MemoryMode.NONE mode_a_cfg.

(** Dead zones of 60% and 60%: the window [60, 40] is inverted. *)
Definition inverted_cfg : KeyerConfig :=
  {| wpm := 20; iambic_mode := IambicMode.B;
     memory_mode := MemoryMode.DOT_AND_DAH; squeeze_mode := SqueezeMode.LIVE;
     mem_block_start_pct := 60; mem_block_end_pct := 60 |}.

(** ** What the host sees keyed *)

(** The host reads [state] after each call: a call that takes it from IDLE
    or the gap into SEND_DIT (SEND_DAH) is the key-down of a DIT (DAH). *)
Definition key_down (s s' : KeyerRuntime) : list Element.t :=
  match state s, state s' with
  | (State.IDLE | State.INTER_ELEMENT_GAP), State.SEND_DIT => [Element.DIT]
  | (State.IDLE | State.INTER_ELEMENT_GAP), State.SEND_DAH => [Element.DAH]
  | _, _ => []
  end.

(** The elements keyed, in order, while the calls [cs] run on [s]. *)
Fixpoint keyed (cs : list call) (s : KeyerRuntime) : list Element.t :=
  match cs with
  | [] => []
  | k :: cs' =>
      key_down s (after (do_call k) s) ++ keyed cs' (after (do_call k) s)
  end.

(** [e], opposite of [e], [e], ... *)
Fixpoint alternates_from (e : Element.t) (l : list Element.t) : Prop :=
  match l with
  | [] => True
  | x :: l' => x = e /\ alternates_from (opposite e) l'
  end.

(** A runtime under a held squeeze whose next key-down will be [next]:
    at rest; sending the opposite of [next] with nothing queued; or in the
    gap after it with nothing queued but, at most, [next] itself. *)
Inductive squeezing (c : KeyerConfig) (next : Element.t) (s : KeyerRuntime) : Prop :=
| squeezing_idle :
    state s = State.IDLE -> next = Element.DIT -> queue s = [] ->
    dot_requested s = false -> dah_requested s = false ->
    squeezing c next s
| squeezing_send (cur : Element.t) :
    state s = send_state cur -> current_element s = Some cur ->
    next = opposite cur -> queue s = [] -> (wpm c =? 0) = false ->
    match cur with
    | Element.DIT => dot_requested s = false
    | Element.DAH => dah_requested s = false
    end ->
    squeezing c next s
| squeezing_gap (cur : Element.t) :
    state s = State.INTER_ELEMENT_GAP -> current_element s = Some cur ->
    next = opposite cur -> queue s = [] \/ queue s = [next] ->
    (wpm c =? 0) = false ->
    dot_requested s = false -> dah_requested s = false ->
    squeezing c next s.

(** Squeeze held from rest under SNAPSHOT, through three key-downs. *)
Definition snapshot_squeeze_held : list call :=
  [UpdatePaddles true true; Tick 1; Tick 30; Tick 30; Tick 60; Tick 90; Tick 90;
   Tick 60].

(* ================================================================== *)
(** * Comparison of floats *)
(* ================================================================== *)

Lemma SFcompare_antisym (x y : spec_float) (c : comparison) :
  SFcompare x y = Some c -> SFcompare y x = Some (CompOpp c).
Proof.
  destruct x as [sx | sx | | sx mx ex], y as [sy | sy | | sy my ey];
    cbn [SFcompare]; intros H; inversion H; clear H; subst;
    try reflexivity;
    try (destruct sx; reflexivity);
    try (destruct sy; reflexivity);
    try (destruct sx, sy; reflexivity).
  f_equal.
  destruct sx, sy; try reflexivity;
    rewrite (Z.compare_antisym ex ey);
    pose proof (Pos.compare_cont_antisym mx my Eq) as P; cbn [CompOpp] in P;
    destruct (ex ?= ey)%Z; cbn [CompOpp]; try reflexivity;
    rewrite <- P; destruct (Pos.compare_cont Eq mx my); reflexivity.
Qed.

(** [a >= b] excludes [a < b]. *)
Lemma leb_ltb_false (a b : float) : (b <=? a) = true -> (a <? b) = false.
Proof.
  rewrite leb_spec, ltb_spec. unfold SFleb, SFltb.
  destruct (SFcompare (Prim2SF b) (Prim2SF a)) as [c |] eqn:E; [| discriminate].
  rewrite (SFcompare_antisym _ _ _ E).
  destruct c; cbn [CompOpp]; intros H; try discriminate; reflexivity.
Qed.

(** A positive float is not a zero: the guarded division cannot raise. *)
Lemma ltb_0_eqb_0 (t : float) : (0 <? t) = true -> (t =? 0) = false.
Proof.
  rewrite ltb_spec, eqb_spec. unfold SFltb, SFeqb.
  destruct (SFcompare (Prim2SF 0) (Prim2SF t)) as [c |] eqn:E; [| discriminate].
  rewrite (SFcompare_antisym _ _ _ E).
  destruct c; cbn [CompOpp]; intros H; try discriminate; reflexivity.
Qed.

(* ================================================================== *)
(** * What each method does to the object *)
(* ================================================================== *)

Ltac unfold_m :=
  unfold queue_append, queue_clear, pass, bind, ret, assign, eval, self_ in *.

Lemma start_element_run (e : Element.t) (s : KeyerRuntime) :
  _start_element e s =
  match element_duration_ms (cfg s) e with
  | Ok d => (Ok tt, started e d s)
  | Raise x => (Raise x, set_current_element (Some e) s)
  end.
Proof.
  unfold _start_element; unfold_m.
  destruct e; cbn;
    [destruct (dit_duration_ms (cfg s)) | destruct (dah_duration_ms (cfg s))];
    reflexivity.
Qed.

Lemma durations_ok (c : KeyerConfig) :
  (wpm c =? 0) = false ->
  dit_duration_ms c = Ok (1200 / wpm c) /\
  dah_duration_ms c = Ok (3 * (1200 / wpm c)) /\
  gap_duration_ms c = Ok (1200 / wpm c).
Proof.
  intros H. unfold gap_duration_ms, dah_duration_ms, dit_duration_ms, py_truediv.
  rewrite H. repeat split.
Qed.

Lemma durations_raise (c : KeyerConfig) :
  (wpm c =? 0) = true ->
  dit_duration_ms c = Raise ZeroDivisionError /\
  dah_duration_ms c = Raise ZeroDivisionError /\
  gap_duration_ms c = Raise ZeroDivisionError.
Proof.
  intros H. unfold gap_duration_ms, dah_duration_ms, dit_duration_ms, py_truediv.
  rewrite H. repeat split.
Qed.

Lemma element_duration_ok (c : KeyerConfig) (e : Element.t) :
  (wpm c =? 0) = false -> exists d, element_duration_ms c e = Ok d.
Proof.
  intros H. destruct (durations_ok c H) as (Hi & Ha & _).
  destruct e; cbn; eauto.
Qed.

Lemma start_gap_run (s : KeyerRuntime) :
  _start_gap s =
  match gap_duration_ms (cfg s) with
  | Ok d => (Ok tt, set_state State.INTER_ELEMENT_GAP
                      (set_gap_elapsed_ms 0 (set_gap_total_ms d s)))
  | Raise x => (Raise x, s)
  end.
Proof.
  unfold _start_gap; unfold_m.
  destruct (gap_duration_ms (cfg s)); reflexivity.
Qed.

Lemma finish_element_run (s : KeyerRuntime) :
  _finish_element_and_enter_gap s = _start_gap (enqueued s).
Proof.
  destruct s as [c st ce tot el gt ge pp q dr hr dp hp sq lv].
  unfold _finish_element_and_enter_gap, enqueued, latched, bonus, bonus_due,
    reference_combo; unfold_m; cbn -[_start_gap].
  destruct dr, hr; cbn -[_start_gap];
    (destruct (iambic_mode c); cbn -[_start_gap];
     [rewrite ?app_nil_r, <- ?app_assoc; reflexivity |]);
    (destruct sq; cbn -[_start_gap];
     [| rewrite ?app_nil_r, <- ?app_assoc; reflexivity]);
    destruct (squeeze_mode c); cbn -[_start_gap];
    match goal with
    | |- context [PaddleCombo.eqb ?x PaddleCombo.BOTH] =>
        destruct (PaddleCombo.eqb x PaddleCombo.BOTH)
    end; cbn -[_start_gap];
    try destruct (opt_element_is ce Element.DIT); cbn -[_start_gap];
    rewrite ?app_nil_r, <- ?app_assoc; reflexivity.
Qed.

Lemma check_memory_run (s : KeyerRuntime) :
  _check_memory_and_squeeze_during_element s = (Ok tt, checked s).
Proof.
  destruct s as [c st ce tot el gt ge pp q dr hr dp hp sq lv].
  unfold _check_memory_and_squeeze_during_element, checked, progress_of,
    in_window, in_tuple, py_truediv; unfold_m; cbn.
  destruct (0 <? tot) eqn:Htot;
    [rewrite (ltb_0_eqb_0 _ Htot) |]; cbn;
    destruct dp, hp; cbn; rewrite ?orb_true_r, ?orb_false_r;
    destruct (memory_mode c); cbn; rewrite ?andb_false_r, ?orb_false_r;
    try reflexivity;
    match goal with
    | |- context [(?a <=? ?b) && (?b <=? ?d)] =>
        destruct (a <=? b), (b <=? d)
    end; cbn; rewrite ?andb_false_r, ?orb_false_r; try reflexivity;
    destruct st; cbn; rewrite ?orb_true_r, ?orb_false_r; reflexivity.
Qed.

Lemma update_paddles_run (dit dah : bool) (s : KeyerRuntime) :
  update_paddles dit dah s = (Ok tt, paddles_updated dit dah s).
Proof.
  destruct s as [c st ce tot el gt ge pp q dr hr dp hp sq lv].
  unfold update_paddles, paddles_updated; unfold_m; cbn.
  destruct (squeeze_mode c); cbn; [reflexivity |].
  destruct (PaddleCombo.eqb _ _); reflexivity.
Qed.

(** [tick], state by state. *)
Lemma tick_idle_run (dt : float) (s : KeyerRuntime) :
  state s = State.IDLE ->
  tick dt s =
  match get_combo_now s with
  | PaddleCombo.DIT_ONLY | PaddleCombo.BOTH => _start_element Element.DIT s
  | PaddleCombo.DAH_ONLY => _start_element Element.DAH s
  | PaddleCombo.NONE => (Ok tt, s)
  end.
Proof.
  intros H. unfold tick; unfold_m. rewrite H. cbn.
  destruct (get_combo_now s); reflexivity.
Qed.

Lemma tick_send_run (dt : float) (s : KeyerRuntime) :
  state s = State.SEND_DIT \/ state s = State.SEND_DAH ->
  tick dt s =
  let s1 := set_current_element_elapsed_ms (current_element_elapsed_ms s + dt) s in
  if current_element_elapsed_ms s + dt <? current_element_total_ms s
  then (Ok tt, checked s1)
  else _start_gap (enqueued s1).
Proof.
  intros H. unfold tick; unfold_m.
  destruct H as [H | H]; rewrite H;
    cbn -[_check_memory_and_squeeze_during_element _finish_element_and_enter_gap
          _start_gap];
    (destruct (_ <? _);
     [apply check_memory_run | apply finish_element_run]).
Qed.

Lemma tick_gap_run (dt : float) (s : KeyerRuntime) :
  state s = State.INTER_ELEMENT_GAP ->
  tick dt s =
  let s1 := set_gap_elapsed_ms (gap_elapsed_ms s + dt) s in
  if gap_elapsed_ms s + dt <? gap_total_ms s then (Ok tt, s1)
  else
    match queue s with
    | e :: rest => _start_element e (set_queue rest s1)
    | [] =>
        match next_from_paddles s with
        | Some e => _start_element e s1
        | None => (Ok tt, idled s1)
        end
    end.
Proof.
  intros H. unfold tick, next_from_paddles; unfold_m. rewrite H.
  cbn -[_start_element].
  destruct (_ <? _); [reflexivity |].
  destruct (queue s); [| reflexivity].
  destruct s as [c st ce tot el gt ge pp q dr hr dp hp sq lv].
  cbn -[_start_element].
  destruct dp, hp; cbn -[_start_element]; try reflexivity.
  destruct (opt_element_is ce Element.DIT); reflexivity.
Qed.

(** One call, as a function on objects. *)
Lemma after_update_paddles (dit dah : bool) (s : KeyerRuntime) :
  after (update_paddles dit dah) s = paddles_updated dit dah s.
Proof. unfold after. rewrite update_paddles_run. reflexivity. Qed.

(* ================================================================== *)
(** * Invariants of every reachable object *)
(* ================================================================== *)

Lemma inv_init (c : KeyerConfig) : inv c (KeyerRuntime_init c).
Proof. constructor; cbn; intros; try tauto; try congruence; auto. Qed.

Ltac inv_fields :=
  constructor; cbn in *; intros;
  try solve [ assumption | tauto | congruence | discriminate | auto
            | intuition congruence ].

Lemma inv_update_paddles (c : KeyerConfig) (dit dah : bool) (s : KeyerRuntime) :
  inv c s -> inv c (after (update_paddles dit dah) s).
Proof.
  intros [Hc Hw He Hl Hq Hv Hn]. rewrite after_update_paddles.
  destruct s as [c' st ce tot el gt ge pp q dr hr dp hp sq lv].
  cbn in *. subst c'. inv_fields.
  rewrite H. reflexivity.
Qed.

Lemma inv_started (c : KeyerConfig) (e : Element.t) (d : float) (s : KeyerRuntime) :
  inv c s ->
  (wpm c =? 0) = false ->
  (state s = State.IDLE \/ state s = State.INTER_ELEMENT_GAP) ->
  inv c (started e d s).
Proof.
  intros [Hc Hw He Hl Hq Hv Hn] W St.
  destruct s as [c' st ce tot el gt ge pp q dr hr dp hp sq lv].
  cbn in *. subst c'. destruct e; inv_fields.
Qed.

Lemma inv_tick (c : KeyerConfig) (dt : float) (s : KeyerRuntime) :
  inv c s -> inv c (after (tick dt) s).
Proof.
  intros I. pose proof I as [Hc Hw He Hl Hq Hv Hn]. unfold after.
  destruct (state s) eqn:St.
  - (* IDLE *)
    rewrite (tick_idle_run _ _ St).
    assert (forall e, inv c (snd (_start_element e s))) as Hs.
    { intros e. rewrite start_element_run.
      destruct (wpm c =? 0) eqn:W.
      - destruct (durations_raise c W) as (Hi & Ha & _).
        rewrite Hc. destruct e; cbn; rewrite ?Hi, ?Ha; cbn;
          destruct s; cbn in *; subst; inv_fields.
      - destruct (element_duration_ok c e W) as [d Hd].
        rewrite Hc, Hd. cbn. apply inv_started; auto. }
    destruct (get_combo_now s); auto.
  - (* SEND_DIT *)
    rewrite (tick_send_run _ _ (or_introl St)). cbn zeta.
    assert ((wpm c =? 0) = false) as W by (apply Hw; discriminate).
    destruct (_ <? _).
    + destruct s as [c' st ce tot el gt ge pp q dr hr dp hp sq lv].
      cbn in *. subst c' st. inv_fields.
      destruct Hn as [-> ->]; auto. rewrite H. cbn.
      rewrite ?andb_false_r. auto.
    + rewrite start_gap_run.
      destruct (durations_ok c W) as (_ & _ & Hg).
      change (cfg (enqueued (set_current_element_elapsed_ms
                (current_element_elapsed_ms s + dt) s))) with (cfg s).
      rewrite Hc, Hg.
      destruct s as [c' st ce tot el gt ge pp q dr hr dp hp sq lv].
      cbn in *. subst c' st. inv_fields.
  - (* SEND_DAH *)
    rewrite (tick_send_run _ _ (or_intror St)). cbn zeta.
    assert ((wpm c =? 0) = false) as W by (apply Hw; discriminate).
    destruct (_ <? _).
    + destruct s as [c' st ce tot el gt ge pp q dr hr dp hp sq lv].
      cbn in *. subst c' st. inv_fields.
      destruct Hn as [-> ->]; auto. rewrite H. cbn.
      rewrite ?andb_false_r. auto.
    + rewrite start_gap_run.
      destruct (durations_ok c W) as (_ & _ & Hg).
      change (cfg (enqueued (set_current_element_elapsed_ms
                (current_element_elapsed_ms s + dt) s))) with (cfg s).
      rewrite Hc, Hg.
      destruct s as [c' st ce tot el gt ge pp q dr hr dp hp sq lv].
      cbn in *. subst c' st. inv_fields.
  - (* INTER_ELEMENT_GAP *)
    rewrite (tick_gap_run _ _ St). cbn zeta.
    assert ((wpm c =? 0) = false) as W by (apply Hw; discriminate).
    destruct (_ <? _).
    + destruct s as [c' st ce tot el gt ge pp q dr hr dp hp sq lv].
      cbn in *. subst c' st. inv_fields.
    + assert (forall e s', inv c s' -> state s' = State.INTER_ELEMENT_GAP ->
                           inv c (snd (_start_element e s'))) as Hs.
      { intros e s' I' St'. rewrite start_element_run.
        destruct (element_duration_ok c e W) as [d Hd].
        rewrite (inv_cfg _ _ I'), Hd. cbn. apply inv_started; auto. }
      destruct (queue s) as [| e rest] eqn:Q.
      * destruct (next_from_paddles s) as [e |].
        -- apply Hs; [| exact St].
           destruct s as [c' st ce tot el gt ge pp q dr hr dp hp sq lv].
           cbn in *. subst c' st. inv_fields.
        -- destruct s as [c' st ce tot el gt ge pp q dr hr dp hp sq lv].
           cbn in *. subst c' st. inv_fields.
      * apply Hs; [| exact St].
        destruct s as [c' st ce tot el gt ge pp q dr hr dp hp sq lv].
        cbn in *. subst c' st. inv_fields.
Qed.

Lemma reachable_inv (c : KeyerConfig) (s : KeyerRuntime) :
  reachable c s -> inv c s.
Proof.
  induction 1 as [| k s _ IH].
  - apply inv_init.
  - destruct k; cbn [do_call]; [apply inv_update_paddles | apply inv_tick];
      exact IH.
Qed.

Lemma reachable_run_calls (c : KeyerConfig) (cs : list call) (s : KeyerRuntime) :
  reachable c s -> reachable c (run_calls cs s).
Proof.
  revert s. induction cs as [| k cs IH]; intros s R; cbn [run_calls].
  - exact R.
  - apply IH. apply reach_call. exact R.
Qed.

Lemma PaddleCombo_eqb_eq (x y : PaddleCombo.t) :
  PaddleCombo.eqb x y = true <-> x = y.
Proof. destruct x, y; cbn; split; intros H; congruence. Qed.

Lemma PaddleCombo_eqb_neq (x y : PaddleCombo.t) :
  PaddleCombo.eqb x y = false <-> x <> y.
Proof. destruct x, y; cbn; split; intros H; congruence. Qed.

Lemma reachable_session (c : KeyerConfig) (cs : list call) :
  reachable c (session c cs).
Proof. apply reachable_run_calls. apply reach_init. Qed.

(* ================================================================== *)
(** * Timing model *)
(* ================================================================== *)

(** C8.  For every wpm > 0 the timing model returns (raises nothing) and
    gives dit_duration_ms = 1200.0 / wpm, dah_duration_ms = 3 x
    dit_duration_ms and gap_duration_ms = dit_duration_ms. *)
Theorem timing_model (c : KeyerConfig) :
  (0 <? wpm c) = true ->
  exists dit : float,
    dit = 1200 / wpm c /\
    dit_duration_ms c = Ok dit /\
    dah_duration_ms c = Ok (3 * dit) /\
    gap_duration_ms c = Ok dit.
Proof.
  intros H. exists (1200 / wpm c). split; [reflexivity |].
  apply durations_ok. apply ltb_0_eqb_0. exact H.
Qed.

Lemma timing_model_witness :
  exists dit : float,
    dit = 1200 / 20 /\
    dit_duration_ms default_cfg = Ok dit /\
    dah_duration_ms default_cfg = Ok (3 * dit) /\
    gap_duration_ms default_cfg = Ok dit.
Proof. apply (timing_model default_cfg). reflexivity. Defined.

(** At 20 wpm: dit 60 ms, dah 180 ms, gap 60 ms. *)
Example timing_20_wpm :
  dit_duration_ms default_cfg = Ok 60 /\
  dah_duration_ms default_cfg = Ok 180 /\
  gap_duration_ms default_cfg = Ok 60.
Proof. repeat split. Qed.

(* ================================================================== *)
(** * Construction and wpm <= 0 *)
(* ================================================================== *)

(** Against C7 as stated: [KeyerConfig(wpm=0)] is built without complaint,
    and the division by zero is met inside the running FSM, where the first
    [tick] with a paddle down raises [ZeroDivisionError]. *)
Lemma construction_accepts_wpm_zero :
  (0 <=? 0) = true /\
  (exists c : KeyerConfig,
      KeyerConfig_init 0 IambicMode.B MemoryMode.DOT_AND_DAH SqueezeMode.LIVE 15 15
      = Ok c /\
      fst (tick 1 (session c [UpdatePaddles true false]))
      = Raise ZeroDivisionError) /\
  ~ (forall w : float, (w <=? 0) = true ->
       exists e : exn,
         KeyerConfig_init w IambicMode.B MemoryMode.DOT_AND_DAH SqueezeMode.LIVE 15 15
         = Raise e).
Proof.
  split; [reflexivity |]. split.
  - eexists. split; reflexivity.
  - intros H. destruct (H 0 eq_refl) as [e He]. discriminate He.
Qed.

(** C7, as the code has it.  Construction validates nothing: it returns a
    config holding the given wpm, whatever its value.  With wpm = 0 every
    duration of the timing model raises [ZeroDivisionError], and it does so
    inside [tick]: from IDLE with a paddle down, the tick that should start
    the first element raises and the state stays IDLE. *)
Theorem construction_unvalidated (w : float) (im : IambicMode.t)
    (mm : MemoryMode.t) (sm : SqueezeMode.t) (b e : float) :
  exists c : KeyerConfig,
    KeyerConfig_init w im mm sm b e = Ok c /\
    wpm c = w /\
    ((w =? 0) = true ->
     dit_duration_ms c = Raise ZeroDivisionError /\
     dah_duration_ms c = Raise ZeroDivisionError /\
     gap_duration_ms c = Raise ZeroDivisionError /\
     forall (s : KeyerRuntime) (dt : float),
       cfg s = c -> state s = State.IDLE ->
       get_combo_now s <> PaddleCombo.NONE ->
       fst (tick dt s) = Raise ZeroDivisionError /\
       state (after (tick dt) s) = State.IDLE).
Proof.
  eexists. split; [reflexivity |]. split; [reflexivity |].
  intros W.
  match goal with |- dit_duration_ms ?c = _ /\ _ =>
    destruct (durations_raise c W) as (Hi & Ha & Hg) end.
  repeat (split; [assumption |]).
  intros s dt Hc St Hk. unfold after.
  rewrite (tick_idle_run _ _ St).
  destruct (get_combo_now s); [congruence | | |];
    rewrite start_element_run, Hc; cbn [element_duration_ms];
    rewrite ?Hi, ?Ha; cbn; auto.
Qed.

(* ================================================================== *)
(** * Squeeze history tracker: [update_paddles] *)
(* ================================================================== *)

(** C5.  [update_paddles dit dah] returns, stores the two booleans, and
    with [prev_combo] the combo of the booleans stored before the call and
    [new_combo] the combo of the new ones: under SNAPSHOT,
    [last_valid_combo] becomes [prev_combo] if the two differ and is left
    as it was if they are equal; under LIVE it becomes [new_combo]. *)
Theorem update_paddles_last_valid_combo (dit dah : bool) (s : KeyerRuntime) :
  let prev_combo := get_combo_now s in
  let s' := after (update_paddles dit dah) s in
  let new_combo := get_combo_now s' in
  update_paddles dit dah s = (Ok tt, s') /\
  dit_pressed s' = dit /\ dah_pressed s' = dah /\
  match squeeze_mode (cfg s) with
  | SqueezeMode.SNAPSHOT =>
      (prev_combo <> new_combo -> last_valid_combo s' = prev_combo) /\
      (prev_combo = new_combo -> last_valid_combo s' = last_valid_combo s)
  | SqueezeMode.LIVE => last_valid_combo s' = new_combo
  end.
Proof.
  cbn zeta. rewrite after_update_paddles, update_paddles_run.
  split; [reflexivity |]. split; [reflexivity |]. split; [reflexivity |].
  change (get_combo_now (paddles_updated dit dah s))
    with (get_combo_now (set_dah_pressed dah (set_dit_pressed dit s))).
  unfold paddles_updated; cbn [last_valid_combo].
  destruct (squeeze_mode (cfg s)); [reflexivity |].
  split; intros H.
  - apply PaddleCombo_eqb_neq in H. rewrite H. reflexivity.
  - apply PaddleCombo_eqb_eq in H. rewrite H. reflexivity.
Qed.

(* ================================================================== *)
(** * IDLE *)
(* ================================================================== *)

(** C6.  A tick in IDLE (of a runtime whose config has wpm > 0) starts
    DIT on DIT_ONLY, DAH on DAH_ONLY and DIT on BOTH; on NONE it returns the
    object as it was, so any number of ticks with combo NONE leave it IDLE
    with an empty queue. *)
Theorem tick_from_idle (c : KeyerConfig) (s : KeyerRuntime) (dt : float) :
  reachable c s ->
  (0 <? wpm c) = true ->
  state s = State.IDLE ->
  match get_combo_now s with
  | PaddleCombo.DIT_ONLY | PaddleCombo.BOTH =>
      tick dt s = (Ok tt, started Element.DIT (1200 / wpm c) s)
  | PaddleCombo.DAH_ONLY =>
      tick dt s = (Ok tt, started Element.DAH (3 * (1200 / wpm c)) s)
  | PaddleCombo.NONE =>
      tick dt s = (Ok tt, s) /\
      forall dts : list float,
        let s' := run_calls (map Tick dts) s in
        s' = s /\ state s' = State.IDLE /\ queue s' = []
  end.
Proof.
  intros R W St. pose proof (reachable_inv _ _ R) as I.
  destruct (durations_ok c (ltb_0_eqb_0 _ W)) as (Hi & Ha & _).
  rewrite (tick_idle_run _ _ St).
  destruct (get_combo_now s) eqn:K;
    rewrite ?start_element_run, ?(inv_cfg _ _ I); cbn [element_duration_ms];
    rewrite ?Hi, ?Ha; try reflexivity.
  split; [reflexivity |].
  assert (forall dts, run_calls (map Tick dts) s = s) as Hrun.
  { induction dts as [| d dts IH]; cbn [map run_calls do_call]; [reflexivity |].
    unfold after. rewrite (tick_idle_run _ _ St), K. exact IH. }
  intros dts. cbn zeta. rewrite Hrun.
  split; [reflexivity |]. split; [exact St |].
  apply (inv_idle_queue _ _ I St).
Qed.

Lemma tick_from_idle_witness :
  tick 1 (session default_cfg [UpdatePaddles true true])
  = (Ok tt, started Element.DIT (1200 / 20)
              (session default_cfg [UpdatePaddles true true])).
Proof.
  exact (tick_from_idle default_cfg (session default_cfg [UpdatePaddles true true]) 1
           (reachable_session _ _) eq_refl eq_refl).
Defined.

(* ================================================================== *)
(** * Memory latch engine *)
(* ================================================================== *)

(** C4.  A tick in SEND_DIT or SEND_DAH that leaves elapsed below total
    returns and: recomputes the progress; sets squeeze_seen_this_element
    when the combo is BOTH, whatever the window and the memory mode; sets
    dah_requested (while sending DIT) or dot_requested (while sending DAH)
    exactly when the memory mode permits that latch, the combo includes
    the opposite paddle and the progress lies in
    [mem_block_start_pct, 100 - mem_block_end_pct].  With both dead zones
    at 15: no latch changes at 10% or 90% progress, and at 50% a
    compatible press sets its latch. *)
Theorem memory_and_squeeze_during_element (s : KeyerRuntime) (dt : float) :
  state s = State.SEND_DIT \/ state s = State.SEND_DAH ->
  (current_element_elapsed_ms s + dt <? current_element_total_ms s) = true ->
  let s' := after (tick dt) s in
  let k := get_combo_now s in
  let m := memory_mode (cfg s) in
  let p := element_progress_pct s' in
  tick dt s = (Ok tt, s') /\
  p = (if 0 <? current_element_total_ms s
       then 100 * (current_element_elapsed_ms s + dt) / current_element_total_ms s
       else 0) /\
  squeeze_seen_this_element s'
  = squeeze_seen_this_element s || PaddleCombo.eqb k PaddleCombo.BOTH /\
  dah_requested s'
  = dah_requested s
    || (State.eqb (state s) State.SEND_DIT && includes_dah k && permits_dah m
        && (mem_block_start_pct (cfg s) <=? p)
        && (p <=? 100 - mem_block_end_pct (cfg s))) /\
  dot_requested s'
  = dot_requested s
    || (State.eqb (state s) State.SEND_DAH && includes_dit k && permits_dot m
        && (mem_block_start_pct (cfg s) <=? p)
        && (p <=? 100 - mem_block_end_pct (cfg s))) /\
  (mem_block_start_pct (cfg s) = 15 -> mem_block_end_pct (cfg s) = 15 ->
   (p = 10 \/ p = 90 ->
    dah_requested s' = dah_requested s /\ dot_requested s' = dot_requested s) /\
   (p = 50 ->
    (state s = State.SEND_DIT -> includes_dah k = true -> permits_dah m = true ->
     dah_requested s' = true) /\
    (state s = State.SEND_DAH -> includes_dit k = true -> permits_dot m = true ->
     dot_requested s' = true))).
Proof.
  intros St Lt. cbn zeta. unfold after.
  rewrite (tick_send_run _ _ St). cbn zeta. rewrite Lt.
  cbn [snd].
  set (s1 := set_current_element_elapsed_ms (current_element_elapsed_ms s + dt) s).
  assert (dah_requested (checked s1)
          = dah_requested s
            || (State.eqb (state s) State.SEND_DIT && includes_dah (get_combo_now s)
                && permits_dah (memory_mode (cfg s))
                && (mem_block_start_pct (cfg s) <=? element_progress_pct (checked s1))
                && (element_progress_pct (checked s1)
                    <=? 100 - mem_block_end_pct (cfg s)))) as Hdah.
  { cbn. unfold in_window. rewrite andb_assoc. reflexivity. }
  assert (dot_requested (checked s1)
          = dot_requested s
            || (State.eqb (state s) State.SEND_DAH && includes_dit (get_combo_now s)
                && permits_dot (memory_mode (cfg s))
                && (mem_block_start_pct (cfg s) <=? element_progress_pct (checked s1))
                && (element_progress_pct (checked s1)
                    <=? 100 - mem_block_end_pct (cfg s)))) as Hdot.
  { cbn. unfold in_window. rewrite andb_assoc. reflexivity. }
  split; [reflexivity |]. split; [reflexivity |]. split; [reflexivity |].
  split; [exact Hdah |]. split; [exact Hdot |].
  intros Hb He. rewrite Hdah, Hdot, Hb, He. split.
  - intros [-> | ->]; cbn; rewrite ?andb_false_r, ?orb_false_r; auto.
  - intros ->. split; intros S K P; rewrite S, K, P; cbn; apply orb_true_r.
Qed.

Lemma memory_and_squeeze_during_element_witness :
  let s := session default_cfg [UpdatePaddles true true; Tick 1] in
  element_progress_pct (after (tick 30) s) = 50 /\
  squeeze_seen_this_element (after (tick 30) s) = true /\
  dah_requested (after (tick 30) s) = true.
Proof.
  cbn zeta.
  destruct (memory_and_squeeze_during_element
              (session default_cfg [UpdatePaddles true true; Tick 1]) 30
              (or_introl eq_refl) eq_refl)
    as (_ & Hp & Hs & _ & _ & H15).
  split; [rewrite Hp; reflexivity |]. split; [rewrite Hs; reflexivity |].
  apply (H15 eq_refl eq_refl); [rewrite Hp |..]; reflexivity.
Defined.

(* ================================================================== *)
(** * Element completion: bonus and enqueue order *)
(* ================================================================== *)

Lemma queue_after_start_element (e : Element.t) (s : KeyerRuntime) :
  queue (snd (_start_element e s)) = queue s.
Proof.
  rewrite start_element_run.
  destruct (element_duration_ms (cfg s) e); reflexivity.
Qed.

Lemma queue_after_start_gap (s : KeyerRuntime) :
  queue (snd (_start_gap s)) = queue s.
Proof.
  rewrite start_gap_run. destruct (gap_duration_ms (cfg s)); reflexivity.
Qed.

Lemma latches_after_start_gap (s : KeyerRuntime) :
  dot_requested (snd (_start_gap s)) = dot_requested s /\
  dah_requested (snd (_start_gap s)) = dah_requested s.
Proof.
  rewrite start_gap_run. destruct (gap_duration_ms (cfg s)); split; reflexivity.
Qed.

(** What one call can do to the queue: nothing, a popleft, a clear, or the
    appends of an element completion. *)
Lemma queue_after_call (k : call) (s : KeyerRuntime) :
  let s' := after (do_call k) s in
  queue s' = queue s \/
  queue s' = tl (queue s) \/
  queue s' = [] \/
  ((state s = State.SEND_DIT \/ state s = State.SEND_DAH) /\
   queue s' = (queue s ++ latched s) ++ bonus s).
Proof.
  cbn zeta. destruct k as [dit dah | dt]; cbn [do_call].
  { left. rewrite after_update_paddles. reflexivity. }
  unfold after. destruct (state s) eqn:St.
  - left. rewrite (tick_idle_run _ _ St).
    destruct (get_combo_now s); try apply queue_after_start_element.
    reflexivity.
  - rewrite (tick_send_run _ _ (or_introl St)). cbn zeta.
    destruct (_ <? _); [left; reflexivity |].
    right; right; right. split; [auto |]. rewrite queue_after_start_gap.
    reflexivity.
  - rewrite (tick_send_run _ _ (or_intror St)). cbn zeta.
    destruct (_ <? _); [left; reflexivity |].
    right; right; right. split; [auto |]. rewrite queue_after_start_gap.
    reflexivity.
  - rewrite (tick_gap_run _ _ St). cbn zeta.
    destruct (_ <? _); [left; reflexivity |].
    destruct (queue s) as [| e rest] eqn:Q.
    + right; right; left.
      destruct (next_from_paddles s); [| reflexivity].
      rewrite queue_after_start_element. exact Q.
    + right; left. rewrite queue_after_start_element. reflexivity.
Qed.

Lemma bonus_due_iff (s : KeyerRuntime) :
  bonus_due s = true <->
  iambic_mode (cfg s) = IambicMode.B /\
  squeeze_seen_this_element s = true /\
  reference_combo s <> PaddleCombo.BOTH.
Proof.
  unfold bonus_due. rewrite !andb_true_iff, negb_true_iff, PaddleCombo_eqb_neq.
  destruct (iambic_mode (cfg s)); cbn; intuition congruence.
Qed.

(** C1.  On any runtime a host can hold: an element completion (a tick in
    SEND_DIT or SEND_DAH that does not leave elapsed below total) appends a
    bonus element if and only if iambic_mode is B, squeeze_seen_this_element
    is true and the reference combo (the live combo under LIVE,
    last_valid_combo under SNAPSHOT) is not BOTH; the bonus is the opposite
    of the element just sent and comes after the latched elements.  Under
    Mode A no call appends a bonus: a call leaves the queue as it was, pops
    its head, clears it, or appends the memory-latched elements only. *)
Theorem bonus_at_completion (c : KeyerConfig) (s : KeyerRuntime) :
  reachable c s ->
  (forall dt : float,
     state s = State.SEND_DIT \/ state s = State.SEND_DAH ->
     (current_element_elapsed_ms s + dt <? current_element_total_ms s) = false ->
     exists sent : Element.t,
       current_element s = Some sent /\ state s = send_state sent /\
       queue (after (tick dt) s)
       = (queue s ++ latched s) ++ (if bonus_due s then [opposite sent] else []) /\
       (bonus_due s = true <->
        iambic_mode c = IambicMode.B /\
        squeeze_seen_this_element s = true /\
        match squeeze_mode c with
        | SqueezeMode.LIVE => get_combo_now s
        | SqueezeMode.SNAPSHOT => last_valid_combo s
        end <> PaddleCombo.BOTH)) /\
  (iambic_mode c = IambicMode.A ->
   forall k : call,
     queue (after (do_call k) s) = queue s \/
     queue (after (do_call k) s) = tl (queue s) \/
     queue (after (do_call k) s) = [] \/
     queue (after (do_call k) s) = queue s ++ latched s).
Proof.
  intros R. pose proof (reachable_inv _ _ R) as I.
  pose proof (inv_cfg _ _ I) as Hc. split.
  - intros dt St Ge.
    assert (exists sent, current_element s = Some sent /\ state s = send_state sent)
      as (sent & Hsent & Hst).
    { pose proof (inv_elem _ _ I) as He.
      destruct St as [St | St]; rewrite St in He;
        [exists Element.DIT | exists Element.DAH]; auto. }
    exists sent. split; [exact Hsent |]. split; [exact Hst |]. split.
    + unfold after. rewrite (tick_send_run _ _ St). cbn zeta. rewrite Ge.
      rewrite queue_after_start_gap. cbn [enqueued queue].
      unfold latched, bonus, bonus_due, reference_combo. cbn.
      rewrite Hsent. destruct sent; reflexivity.
    + rewrite bonus_due_iff. unfold reference_combo. rewrite Hc. reflexivity.
  - intros HA k.
    assert (bonus s = []) as Hb.
    { unfold bonus, bonus_due. rewrite Hc, HA. reflexivity. }
    destruct (queue_after_call k s) as [H | [H | [H | [_ H]]]]; auto.
    rewrite Hb, app_nil_r in H. auto.
Qed.

Lemma bonus_at_completion_witness :
  queue (after (tick 30) squeeze_released_mid_dit) = [Element.DAH; Element.DAH].
Proof.
  destruct (proj1 (bonus_at_completion default_cfg squeeze_released_mid_dit
                     (reachable_session _ _)) 30 (or_introl eq_refl) eq_refl)
    as (sent & Hsent & _ & Hq & _).
  rewrite Hq. injection Hsent as <-. reflexivity.
Defined.

(** C3.  An element completion appends, in this order: DIT if dot_requested
    was set, DAH if dah_requested was set, then the bonus element if one is
    due; both latches are clear afterwards.  So a bonus, when there is one,
    is the last element of the queue, behind every memory-derived element. *)
Theorem enqueue_order (s : KeyerRuntime) (dt : float) :
  state s = State.SEND_DIT \/ state s = State.SEND_DAH ->
  (current_element_elapsed_ms s + dt <? current_element_total_ms s) = false ->
  let s' := after (tick dt) s in
  queue s'
  = queue s
    ++ (if dot_requested s then [Element.DIT] else [])
    ++ (if dah_requested s then [Element.DAH] else [])
    ++ bonus s /\
  dot_requested s' = false /\ dah_requested s' = false /\
  (bonus s = [] \/
   exists b : Element.t,
     bonus s = [b] /\ bonus_due s = true /\
     queue s' = (queue s ++ latched s) ++ [b]).
Proof.
  intros St Ge. cbn zeta. unfold after.
  rewrite (tick_send_run _ _ St). cbn zeta. rewrite Ge.
  rewrite queue_after_start_gap.
  destruct (latches_after_start_gap
              (enqueued (set_current_element_elapsed_ms
                           (current_element_elapsed_ms s + dt) s))) as [-> ->].
  cbn [enqueued queue dot_requested dah_requested].
  split; [| split; [reflexivity | split; [reflexivity |]]].
  - unfold latched, bonus, bonus_due, reference_combo. cbn.
    rewrite <- !app_assoc. reflexivity.
  - change (bonus (set_current_element_elapsed_ms
                     (current_element_elapsed_ms s + dt) s)) with (bonus s).
    change (latched (set_current_element_elapsed_ms
                       (current_element_elapsed_ms s + dt) s)) with (latched s).
    unfold bonus. destruct (bonus_due s); [right | left; reflexivity].
    eexists. repeat split.
Qed.

Lemma enqueue_order_witness :
  queue (after (tick 30) squeeze_released_mid_dit)
  = [] ++ [] ++ [Element.DAH] ++ [Element.DAH].
Proof.
  exact (proj1 (enqueue_order squeeze_released_mid_dit 30
                  (or_introl eq_refl) eq_refl)).
Defined.

(* ================================================================== *)
(** * End of the inter-element gap *)
(* ================================================================== *)

(** C2.  On any runtime a host can hold, a tick in INTER_ELEMENT_GAP whose
    dt_ms brings gap_elapsed to gap_total or beyond returns and: with a
    non-empty queue, pops its head and starts it, whatever the paddles; with
    an empty queue, starts DIT on DIT_ONLY, DAH on DAH_ONLY, the opposite of
    the element just completed on BOTH, and goes to IDLE on NONE. *)
Theorem gap_end_schedule (c : KeyerConfig) (s : KeyerRuntime) (dt : float) :
  reachable c s ->
  state s = State.INTER_ELEMENT_GAP ->
  (gap_total_ms s <=? gap_elapsed_ms s + dt) = true ->
  let s1 := set_gap_elapsed_ms (gap_elapsed_ms s + dt) s in
  exists (completed : Element.t) (dit dah : float),
    current_element s = Some completed /\
    dit_duration_ms c = Ok dit /\ dah_duration_ms c = Ok dah /\
    let duration e := match e with Element.DIT => dit | Element.DAH => dah end in
    match queue s with
    | e :: rest =>
        tick dt s = (Ok tt, started e (duration e) (set_queue rest s1))
    | [] =>
        match get_combo_now s with
        | PaddleCombo.DIT_ONLY =>
            tick dt s = (Ok tt, started Element.DIT dit s1)
        | PaddleCombo.DAH_ONLY =>
            tick dt s = (Ok tt, started Element.DAH dah s1)
        | PaddleCombo.BOTH =>
            tick dt s
            = (Ok tt, started (opposite completed) (duration (opposite completed)) s1)
        | PaddleCombo.NONE =>
            tick dt s = (Ok tt, idled s1) /\
            state (after (tick dt) s) = State.IDLE
        end
    end.
Proof.
  intros R St Ge. cbn zeta.
  pose proof (reachable_inv _ _ R) as I.
  pose proof (inv_cfg _ _ I) as Hc.
  assert ((wpm c =? 0) = false) as W by (apply (inv_wpm _ _ I); congruence).
  destruct (durations_ok c W) as (Hi & Ha & _).
  pose proof (inv_elem _ _ I) as He. rewrite St in He.
  destruct (current_element s) as [completed |] eqn:Ce; [| congruence].
  exists completed, (1200 / wpm c), (3 * (1200 / wpm c)).
  split; [reflexivity |]. split; [exact Hi |]. split; [exact Ha |].
  unfold after. rewrite (tick_gap_run _ _ St). cbn zeta.
  rewrite (leb_ltb_false _ _ Ge).
  destruct (queue s) as [| e rest].
  - unfold next_from_paddles. rewrite Ce.
    destruct (get_combo_now s); try (split; reflexivity);
      try destruct completed; cbn [opt_element_is Element.eqb opposite];
      rewrite start_element_run; cbn [cfg set_gap_elapsed_ms element_duration_ms];
      rewrite Hc, ?Hi, ?Ha; reflexivity.
  - rewrite start_element_run.
    cbn [cfg set_gap_elapsed_ms set_queue]. rewrite Hc.
    destruct e; cbn [element_duration_ms]; rewrite ?Hi, ?Ha; reflexivity.
Qed.

Lemma gap_end_schedule_witness :
  state gap_with_queued_dah = State.INTER_ELEMENT_GAP /\
  queue gap_with_queued_dah = [Element.DAH; Element.DAH] /\
  state (after (tick 60) gap_with_queued_dah) = State.SEND_DAH /\
  queue (after (tick 60) gap_with_queued_dah) = [Element.DAH].
Proof.
  destruct (gap_end_schedule default_cfg gap_with_queued_dah 60
              (reachable_session _ _) eq_refl eq_refl)
    as (completed & dit & dah & _ & _ & _ & H).
  assert (queue gap_with_queued_dah = [Element.DAH; Element.DAH]) as Q
    by reflexivity.
  cbv zeta in H. rewrite Q in H. unfold after. rewrite H.
  repeat split; assumption.
Defined.

(* ================================================================== *)
(** * Natural return to IDLE *)
(* ================================================================== *)

(** Against C9 as stated: under SNAPSHOT, after one dit keyed and released
    the gap ends on an empty queue with combo NONE, the runtime goes back to
    IDLE, and last_valid_combo is DIT_ONLY while a fresh runtime has NONE. *)
Lemma natural_empty_keeps_snapshot_combo :
  state snapshot_dit_released = State.INTER_ELEMENT_GAP /\
  queue snapshot_dit_released = [] /\
  get_combo_now snapshot_dit_released = PaddleCombo.NONE /\
  fst (tick 60 snapshot_dit_released) = Ok tt /\
  state (after (tick 60) snapshot_dit_released) = State.IDLE /\
  last_valid_combo (after (tick 60) snapshot_dit_released) = PaddleCombo.DIT_ONLY /\
  last_valid_combo (KeyerRuntime_init snapshot_cfg) = PaddleCombo.NONE /\
  after (tick 60) snapshot_dit_released <> KeyerRuntime_init snapshot_cfg.
Proof.
  repeat (split; [reflexivity |]).
  intros H. apply (f_equal last_valid_combo) in H. vm_compute in H.
  discriminate H.
Qed.

(** C9, as the code has it.  When a gap ends with an empty queue and combo
    NONE, the tick returns and the runtime equals a freshly-constructed one
    in every field except last_valid_combo, which the tick leaves alone:
    state, current_element, the elapsed/total counters, element_progress_pct,
    squeeze_seen_this_element, the queue, both latches and both paddle
    booleans.  Under LIVE last_valid_combo is NONE as well, and the runtime
    is equal to a fresh one. *)
Theorem natural_empty_is_fresh (c : KeyerConfig) (s : KeyerRuntime) (dt : float) :
  reachable c s ->
  state s = State.INTER_ELEMENT_GAP ->
  (gap_elapsed_ms s + dt <? gap_total_ms s) = false ->
  queue s = [] ->
  get_combo_now s = PaddleCombo.NONE ->
  let s' := after (tick dt) s in
  tick dt s = (Ok tt, s') /\
  s' = set_last_valid_combo (last_valid_combo s) (KeyerRuntime_init c) /\
  (squeeze_mode c = SqueezeMode.LIVE -> s' = KeyerRuntime_init c).
Proof.
  intros R St Ge Q K. cbn zeta.
  pose proof (reachable_inv _ _ R) as I.
  unfold after. rewrite (tick_gap_run _ _ St). cbn zeta.
  rewrite Ge, Q. unfold next_from_paddles. rewrite K. cbn [snd].
  split; [reflexivity |].
  assert (idled (set_gap_elapsed_ms (gap_elapsed_ms s + dt) s)
          = set_last_valid_combo (last_valid_combo s) (KeyerRuntime_init c)) as E.
  { destruct (inv_latch _ _ I (or_intror St)) as [Hd Hh].
    pose proof (inv_cfg _ _ I) as Hc.
    destruct s as [c' st ce tot el gt ge pp q dr hr dp hp sq lv].
    cbn in *. subst. 
    destruct dp, hp; try discriminate K. reflexivity. }
  split; [exact E |].
  intros L. rewrite E. rewrite (inv_live _ _ I L), K. reflexivity.
Qed.

Lemma natural_empty_is_fresh_witness :
  after (tick 60) live_dit_released = KeyerRuntime_init default_cfg.
Proof.
  apply (natural_empty_is_fresh default_cfg live_dit_released 60
           (reachable_session _ _) eq_refl eq_refl eq_refl eq_refl).
  reflexivity.
Defined.

(* ================================================================== *)
(** * Memory mode NONE *)
(* ================================================================== *)

(** C10.  With memory_mode NONE, a fresh runtime put through any calls has
    both latches clear, and a call can only leave the queue as it was, pop
    its head, clear it, or append the one Mode-B bonus element (the opposite
    of the element sent, iambic_mode being B). *)
Theorem memory_none_never_latches (c : KeyerConfig) (s : KeyerRuntime) :
  memory_mode c = MemoryMode.NONE ->
  reachable c s ->
  dot_requested s = false /\
  dah_requested s = false /\
  forall k : call,
    let s' := after (do_call k) s in
    queue s' = queue s \/
    queue s' = tl (queue s) \/
    queue s' = [] \/
    (exists sent : Element.t,
        iambic_mode c = IambicMode.B /\
        current_element s = Some sent /\
        queue s' = queue s ++ [opposite sent]).
Proof.
  intros Hm R. pose proof (reachable_inv _ _ R) as I.
  destruct (inv_nomem _ _ I Hm) as [Hd Hh].
  split; [exact Hd |]. split; [exact Hh |].
  intros k. cbn zeta.
  destruct (queue_after_call k s) as [H | [H | [H | [St H]]]]; auto.
  unfold latched in H. rewrite Hd, Hh, app_nil_r in H.
  unfold bonus in H. destruct (bonus_due s) eqn:B.
  - right; right; right.
    apply bonus_due_iff in B. destruct B as (HB & _ & _).
    rewrite (inv_cfg _ _ I) in HB.
    pose proof (inv_elem _ _ I) as He.
    destruct St as [St | St]; rewrite St in He; rewrite He in H |- *;
      eexists; (split; [exact HB |]); (split; [reflexivity |]); exact H.
  - left. rewrite app_nil_r in H. exact H.
Qed.

Lemma memory_none_never_latches_witness :
  dot_requested no_memory_squeeze_released = false /\
  dah_requested no_memory_squeeze_released = false.
Proof.
  destruct (memory_none_never_latches no_memory_cfg no_memory_squeeze_released
              eq_refl (reachable_session _ _)) as (Hd & Hh & _).
  split; assumption.
Defined.

(* ================================================================== *)
(** * Worked sessions *)
(* ================================================================== *)

(** Squeeze seen and released during the DIT, memory NONE: at the end of
    the DIT the only element queued is the bonus. *)
Example no_memory_bonus_only :
  queue (after (tick 30) no_memory_squeeze_released) = [Element.DAH].
Proof. reflexivity. Qed.

(** The same calls under SNAPSHOT: at the release update_paddles stores the
    combo before the change, BOTH, so the reference combo is BOTH and no
    bonus is due; the latched DAH is queued alone. *)
Example snapshot_release_no_bonus :
  last_valid_combo (session snapshot_cfg squeeze_then_release) = PaddleCombo.BOTH /\
  bonus_due (session snapshot_cfg squeeze_then_release) = false /\
  queue (after (tick 30) (session snapshot_cfg squeeze_then_release))
  = [Element.DAH].
Proof. repeat split. Qed.

(** The same calls under Mode A with full memory: the latched DAH only. *)
Example mode_a_latched_only :
  queue (after (tick 30) mode_a_squeeze_released) = [Element.DAH].
Proof. reflexivity. Qed.

(** [KeyerConfig()] is [default_cfg]. *)
Example KeyerConfig_defaults_value : KeyerConfig_defaults = Ok default_cfg.
Proof. reflexivity. Qed.


(* ================================================================== *)
(** * Exceptions *)
(* ================================================================== *)

(** X1.  [tick] raises only through the timing model: on a runtime whose
    config has a non-zero wpm it returns for every dt_ms (negative, infinite
    or NaN included) and every state. *)
Theorem tick_returns (s : KeyerRuntime) (dt : float) :
  (wpm (cfg s) =? 0) = false ->
  fst (tick dt s) = Ok tt.
Proof.
  intros W.
  destruct (durations_ok _ W) as (Hi & Ha & Hg).
  assert (forall e s', cfg s' = cfg s -> fst (_start_element e s') = Ok tt) as Hs.
  { intros e s' E. rewrite start_element_run, E.
    destruct e; cbn [element_duration_ms]; rewrite ?Hi, ?Ha; reflexivity. }
  assert (forall s', cfg s' = cfg s -> fst (_start_gap s') = Ok tt) as Hgap.
  { intros s' E. rewrite start_gap_run, E, Hg. reflexivity. }
  destruct (state s) eqn:St.
  - rewrite (tick_idle_run _ _ St).
    destruct (get_combo_now s); auto.
  - rewrite (tick_send_run _ _ (or_introl St)). cbn zeta.
    destruct (_ <? _); [reflexivity | apply Hgap; reflexivity].
  - rewrite (tick_send_run _ _ (or_intror St)). cbn zeta.
    destruct (_ <? _); [reflexivity | apply Hgap; reflexivity].
  - rewrite (tick_gap_run _ _ St). cbn zeta.
    destruct (_ <? _); [reflexivity |].
    destruct (queue s); [destruct (next_from_paddles s) |]; auto.
Qed.

Lemma tick_returns_witness :
  fst (tick nan gap_with_queued_dah) = Ok tt.
Proof. apply tick_returns. reflexivity. Defined.

(** X2.  With wpm = 0 no element is ever sent: whatever the host calls,
    the runtime stays IDLE with an empty queue and clear latches. *)
Theorem wpm_zero_stays_idle (c : KeyerConfig) (s : KeyerRuntime) :
  (wpm c =? 0) = true ->
  reachable c s ->
  state s = State.IDLE /\ queue s = [] /\
  dot_requested s = false /\ dah_requested s = false.
Proof.
  intros W R. pose proof (reachable_inv _ _ R) as I.
  assert (state s = State.IDLE) as St.
  { destruct (state s) eqn:St; [reflexivity | | |];
      (assert ((wpm c =? 0) = false) as W'
         by (apply (inv_wpm _ _ I); rewrite St; discriminate));
      congruence. }
  split; [exact St |]. split; [apply (inv_idle_queue _ _ I St) |].
  apply (inv_latch _ _ I). left. exact St.
Qed.

Lemma wpm_zero_stays_idle_witness :
  state (session wpm_zero_cfg
           [UpdatePaddles true true; Tick 1; Tick 60; UpdatePaddles false true;
            Tick 60]) = State.IDLE.
Proof.
  apply (wpm_zero_stays_idle wpm_zero_cfg _ eq_refl (reachable_session _ _)).
Defined.

(* ================================================================== *)
(** * Who writes which field *)
(* ================================================================== *)

Lemma tick_frame (s : KeyerRuntime) (dt : float) :
  cfg (after (tick dt) s) = cfg s /\
  dit_pressed (after (tick dt) s) = dit_pressed s /\
  dah_pressed (after (tick dt) s) = dah_pressed s /\
  last_valid_combo (after (tick dt) s) = last_valid_combo s.
Proof.
  unfold after.
  assert (forall e s', let r := snd (_start_element e s') in
            cfg r = cfg s' /\ dit_pressed r = dit_pressed s' /\
            dah_pressed r = dah_pressed s' /\
            last_valid_combo r = last_valid_combo s') as Hs.
  { intros e s'. cbn zeta. rewrite start_element_run.
    destruct (element_duration_ms (cfg s') e); repeat split. }
  assert (forall s', let r := snd (_start_gap s') in
            cfg r = cfg s' /\ dit_pressed r = dit_pressed s' /\
            dah_pressed r = dah_pressed s' /\
            last_valid_combo r = last_valid_combo s') as Hg.
  { intros s'. cbn zeta. rewrite start_gap_run.
    destruct (gap_duration_ms (cfg s')); repeat split. }
  destruct (state s) eqn:St.
  - rewrite (tick_idle_run _ _ St).
    destruct (get_combo_now s); try exact (Hs _ _). repeat split.
  - rewrite (tick_send_run _ _ (or_introl St)). cbn zeta.
    destruct (_ <? _); [repeat split | exact (Hg _)].
  - rewrite (tick_send_run _ _ (or_intror St)). cbn zeta.
    destruct (_ <? _); [repeat split | exact (Hg _)].
  - rewrite (tick_gap_run _ _ St). cbn zeta.
    destruct (_ <? _); [repeat split |].
    destruct (queue s); [destruct (next_from_paddles s) |];
      try exact (Hs _ _); repeat split.
Qed.

Lemma ticks_frame (dts : list float) (s : KeyerRuntime) :
  cfg (run_calls (map Tick dts) s) = cfg s /\
  dit_pressed (run_calls (map Tick dts) s) = dit_pressed s /\
  dah_pressed (run_calls (map Tick dts) s) = dah_pressed s /\
  last_valid_combo (run_calls (map Tick dts) s) = last_valid_combo s.
Proof.
  revert s. induction dts as [| dt dts IH]; intros s; cbn [map run_calls do_call].
  - repeat split.
  - destruct (IH (after (tick dt) s)) as (-> & -> & -> & ->).
    apply tick_frame.
Qed.

(** X3.  [tick] never writes the config, the paddle booleans or
    last_valid_combo, whether it returns or raises: after any run of ticks
    they, and so the combo, are what [update_paddles] (or the constructor)
    last made them. *)
Theorem tick_keeps_paddles (dts : list float) (s : KeyerRuntime) :
  let s' := run_calls (map Tick dts) s in
  cfg s' = cfg s /\
  dit_pressed s' = dit_pressed s /\
  dah_pressed s' = dah_pressed s /\
  last_valid_combo s' = last_valid_combo s /\
  get_combo_now s' = get_combo_now s.
Proof.
  cbn zeta. destruct (ticks_frame dts s) as (Hc & Hd & Hh & Hl).
  repeat (split; [assumption |]).
  unfold get_combo_now. rewrite Hd, Hh. reflexivity.
Qed.

(** X4.  [update_paddles] writes the paddle booleans and last_valid_combo
    only; calling it twice with the same booleans is calling it once; and
    under LIVE a call wipes out what an earlier call did. *)
Theorem update_paddles_idempotent (dit dah : bool) (s : KeyerRuntime) :
  let s' := after (update_paddles dit dah) s in
  set_last_valid_combo (last_valid_combo s)
    (set_dah_pressed (dah_pressed s) (set_dit_pressed (dit_pressed s) s')) = s /\
  after (update_paddles dit dah) s' = s' /\
  (squeeze_mode (cfg s) = SqueezeMode.LIVE ->
   forall dit0 dah0 : bool,
     after (update_paddles dit dah) (after (update_paddles dit0 dah0) s) = s').
Proof.
  cbn zeta. rewrite !after_update_paddles.
  destruct s as [c st ce tot el gt ge pp q dr hr dp hp sq lv].
  split; [reflexivity |]. split.
  - unfold paddles_updated; cbn.
    destruct (squeeze_mode c); [reflexivity |].
    destruct dit, dah; cbn; reflexivity.
  - cbn. intros L dit0 dah0. rewrite !after_update_paddles.
    unfold paddles_updated; cbn. rewrite L. reflexivity.
Qed.

(** X5.  Under LIVE, last_valid_combo is the combo of the stored paddle
    booleans at all times. *)
Theorem live_mirrors_paddles (c : KeyerConfig) (s : KeyerRuntime) :
  squeeze_mode c = SqueezeMode.LIVE ->
  reachable c s ->
  last_valid_combo s = get_combo_now s /\
  reference_combo s = get_combo_now s.
Proof.
  intros L R. pose proof (reachable_inv _ _ R) as I.
  split; [apply (inv_live _ _ I L) |].
  unfold reference_combo. rewrite (inv_cfg _ _ I), L. reflexivity.
Qed.

Lemma live_mirrors_paddles_witness :
  last_valid_combo gap_with_queued_dah = get_combo_now gap_with_queued_dah.
Proof.
  apply (live_mirrors_paddles default_cfg gap_with_queued_dah eq_refl
           (reachable_session _ _)).
Defined.

(* ================================================================== *)
(** * Latches, totals and the clean IDLE *)
(* ================================================================== *)

Lemma shape_init (c : KeyerConfig) : shape c (KeyerRuntime_init c).
Proof. constructor; cbn; intros; repeat split; auto; intuition discriminate. Qed.

Ltac shape_fields :=
  constructor; cbn in *; intros;
  try solve [ assumption | tauto | congruence | discriminate | auto
            | intuition congruence | repeat split; auto ].

Lemma shape_update_paddles (c : KeyerConfig) (dit dah : bool) (s : KeyerRuntime) :
  shape c s -> shape c (after (update_paddles dit dah) s).
Proof.
  intros [Hl Ht Hr Hi]. rewrite after_update_paddles.
  destruct s as [c' st ce tot el gt ge pp q dr hr dp hp sq lv].
  cbn in *. shape_fields.
Qed.

Lemma shape_started (c : KeyerConfig) (e : Element.t) (s : KeyerRuntime) :
  dot_requested s = false -> dah_requested s = false ->
  (wpm c =? 0) = false ->
  shape c (started e (match e with
                      | Element.DIT => 1200 / wpm c
                      | Element.DAH => 3 * (1200 / wpm c)
                      end) s).
Proof.
  intros Hd Hh W.
  destruct s as [c' st ce tot el gt ge pp q dr hr dp hp sq lv].
  cbn in *. subst. destruct e; shape_fields.
Qed.

Lemma shape_tick (c : KeyerConfig) (dt : float) (s : KeyerRuntime) :
  inv c s -> shape c s -> shape c (after (tick dt) s).
Proof.
  intros I Sh. pose proof I as [Hc Hw He Hl Hq Hv Hn].
  pose proof Sh as [Sl St' Sr Si]. unfold after.
  assert (forall e s', cfg s' = c -> (wpm c =? 0) = false ->
            dot_requested s' = false -> dah_requested s' = false ->
            shape c (snd (_start_element e s'))) as Hs.
  { intros e s' E W Hd Hh. rewrite start_element_run, E.
    destruct (durations_ok c W) as (Hi & Ha & _).
    destruct e; cbn [element_duration_ms]; rewrite ?Hi, ?Ha; cbn [snd];
      [apply (shape_started c Element.DIT) | apply (shape_started c Element.DAH)];
      auto. }
  destruct (state s) eqn:St.
  - (* IDLE *)
    rewrite (tick_idle_run _ _ St).
    destruct (Hl (or_introl eq_refl)) as [Hd Hh].
    destruct (wpm c =? 0) eqn:W.
    + destruct (durations_raise c W) as (Hi & Ha & _).
      assert (forall e, shape c (snd (_start_element e s))) as Hr.
      { intros e. rewrite start_element_run, Hc.
        destruct e; cbn [element_duration_ms]; rewrite ?Hi, ?Ha; cbn [snd];
          destruct s; cbn in *; subst; shape_fields. }
      destruct (get_combo_now s); auto.
    + destruct (get_combo_now s); auto.
  - (* SEND_DIT *)
    rewrite (tick_send_run _ _ (or_introl St)). cbn zeta.
    assert ((wpm c =? 0) = false) as W by (apply Hw; discriminate).
    destruct (current_element_elapsed_ms s + dt <? current_element_total_ms s)
      eqn:Lt.
    + destruct s as [c' st ce tot el gt ge pp q dr hr dp hp sq lv].
      cbn in *. subst c' st. shape_fields.
      rewrite Sl. reflexivity.
    + rewrite start_gap_run.
      destruct (durations_ok c W) as (_ & _ & Hg).
      change (cfg (enqueued (set_current_element_elapsed_ms
                (current_element_elapsed_ms s + dt) s))) with (cfg s).
      rewrite Hc, Hg.
      destruct s as [c' st ce tot el gt ge pp q dr hr dp hp sq lv].
      cbn in *. subst c' st. shape_fields.
  - (* SEND_DAH *)
    rewrite (tick_send_run _ _ (or_intror St)). cbn zeta.
    assert ((wpm c =? 0) = false) as W by (apply Hw; discriminate).
    destruct (current_element_elapsed_ms s + dt <? current_element_total_ms s)
      eqn:Lt.
    + destruct s as [c' st ce tot el gt ge pp q dr hr dp hp sq lv].
      cbn in *. subst c' st. shape_fields.
      rewrite Sl. reflexivity.
    + rewrite start_gap_run.
      destruct (durations_ok c W) as (_ & _ & Hg).
      change (cfg (enqueued (set_current_element_elapsed_ms
                (current_element_elapsed_ms s + dt) s))) with (cfg s).
      rewrite Hc, Hg.
      destruct s as [c' st ce tot el gt ge pp q dr hr dp hp sq lv].
      cbn in *. subst c' st. shape_fields.
  - (* INTER_ELEMENT_GAP *)
    rewrite (tick_gap_run _ _ St). cbn zeta.
    assert ((wpm c =? 0) = false) as W by (apply Hw; discriminate).
    destruct (Hl (or_intror eq_refl)) as [Hd Hh].
    destruct (gap_elapsed_ms s + dt <? gap_total_ms s).
    + destruct s as [c' st ce tot el gt ge pp q dr hr dp hp sq lv].
      cbn in *. subst c' st. shape_fields.
    + destruct (queue s) as [| e rest];
        [destruct (next_from_paddles s) as [e |] |]; try (apply Hs; auto).
      destruct s as [c' st ce tot el gt ge pp q dr hr dp hp sq lv].
      cbn in *. subst c' st. shape_fields.
Qed.

Lemma reachable_shape (c : KeyerConfig) (s : KeyerRuntime) :
  reachable c s -> shape c s.
Proof.
  induction 1 as [| k s R IH].
  - apply shape_init.
  - destruct k; cbn [do_call];
      [apply shape_update_paddles | apply shape_tick; [apply reachable_inv |]];
      assumption.
Qed.

(** X6.  A latch is only ever set for the element opposite to the one
    being sent: dot_requested only in SEND_DAH, dah_requested only in
    SEND_DIT, never both; so no call makes the queue longer by more than two
    elements (one latched, one bonus). *)
Theorem latch_is_for_opposite (c : KeyerConfig) (s : KeyerRuntime) :
  reachable c s ->
  (dot_requested s = true -> state s = State.SEND_DAH) /\
  (dah_requested s = true -> state s = State.SEND_DIT) /\
  dot_requested s && dah_requested s = false /\
  forall k : call,
    length (queue (after (do_call k) s)) <= length (queue s) + 2.
Proof.
  intros R. pose proof (shape_latch _ _ (reachable_shape _ _ R)) as Sl.
  assert (dot_requested s && dah_requested s = false) as Hx.
  { destruct (state s); [destruct Sl as [-> _] | rewrite Sl | rewrite Sl
                        | destruct Sl as [-> _]];
      rewrite ?andb_false_r; reflexivity. }
  split; [| split; [| split; [exact Hx |]]].
  - intros H. destruct (state s); intuition congruence.
  - intros H. destruct (state s); intuition congruence.
  - intros k.
    destruct (queue_after_call k s) as [H | [H | [H | [_ H]]]]; rewrite H.
    + lia.
    + destruct (queue s); cbn; lia.
    + cbn; lia.
    + rewrite !length_app. unfold latched, bonus.
      destruct (dot_requested s), (dah_requested s), (bonus_due s);
        cbn in *; try discriminate Hx; lia.
Qed.

Lemma latch_is_for_opposite_witness :
  length (queue (after (tick 30) squeeze_released_mid_dit))
  <= length (queue squeeze_released_mid_dit) + 2.
Proof.
  exact (proj2 (proj2 (proj2
           (latch_is_for_opposite default_cfg squeeze_released_mid_dit
              (reachable_session _ _)))) (Tick 30)).
Defined.

(** X7.  The state, current_element and the totals always agree with the
    timing model: in SEND_DIT the current element is DIT and its total is
    dit_duration_ms, in SEND_DAH it is DAH with dah_duration_ms, in the gap
    gap_total_ms is gap_duration_ms; and an element in SEND_* has either
    just started (elapsed 0) or is below its total. *)
Theorem totals_from_timing_model (c : KeyerConfig) (s : KeyerRuntime) :
  reachable c s ->
  match state s with
  | State.SEND_DIT =>
      current_element s = Some Element.DIT /\
      dit_duration_ms c = Ok (current_element_total_ms s)
  | State.SEND_DAH =>
      current_element s = Some Element.DAH /\
      dah_duration_ms c = Ok (current_element_total_ms s)
  | State.INTER_ELEMENT_GAP =>
      current_element s <> None /\
      gap_duration_ms c = Ok (gap_total_ms s)
  | State.IDLE => True
  end /\
  (state s = State.SEND_DIT \/ state s = State.SEND_DAH ->
   current_element_elapsed_ms s = 0 \/
   (current_element_elapsed_ms s <? current_element_total_ms s) = true).
Proof.
  intros R. pose proof (reachable_inv _ _ R) as I.
  pose proof (reachable_shape _ _ R) as Sh.
  split; [| apply (shape_running _ _ Sh)].
  pose proof (inv_elem _ _ I) as He. pose proof (shape_total _ _ Sh) as Ht.
  pose proof (inv_wpm _ _ I) as Hw.
  destruct (state s); [exact Logic.I | | |];
    (assert ((wpm c =? 0) = false) as W by (apply Hw; discriminate));
    destruct (durations_ok c W) as (Hi & Ha & Hg);
    rewrite Ht; auto.
Qed.

Lemma totals_from_timing_model_witness :
  dah_duration_ms default_cfg
  = Ok (current_element_total_ms (after (tick 60) gap_with_queued_dah)).
Proof.
  exact (proj2 (proj1
           (totals_from_timing_model default_cfg
              (after (tick 60) gap_with_queued_dah)
              (reach_call _ (Tick 60) _ (reachable_session _ _))))).
Defined.

(** X8.  IDLE is always clean.  With a non-zero wpm, whenever the state is
    IDLE the runtime is a freshly-constructed one that has been given the
    current paddle booleans and last_valid_combo: no current element, zero
    counters and progress, empty queue, clear latches. *)
Theorem idle_is_clean (c : KeyerConfig) (s : KeyerRuntime) :
  reachable c s ->
  (wpm c =? 0) = false ->
  state s = State.IDLE ->
  s = fresh_with_paddles_of c s.
Proof.
  intros R W St. pose proof (reachable_inv _ _ R) as I.
  pose proof (reachable_shape _ _ R) as Sh.
  destruct (shape_idle _ _ Sh St W) as (H1 & H2 & H3 & H4 & H5 & H6 & H7).
  destruct (inv_latch _ _ I (or_introl St)) as [Hd Hh].
  pose proof (inv_idle_queue _ _ I St) as Hq.
  pose proof (inv_cfg _ _ I) as Hc.
  destruct s as [c' st ce tot el gt ge pp q dr hr dp hp sq lv].
  cbn in *. subst. reflexivity.
Qed.

Lemma idle_is_clean_witness :
  after (tick 60) live_dit_released
  = fresh_with_paddles_of default_cfg (after (tick 60) live_dit_released).
Proof.
  apply (idle_is_clean default_cfg (after (tick 60) live_dit_released)
           (reach_call _ (Tick 60) _ (reachable_session _ _)));
    reflexivity.
Defined.

(** X9.  With Mode A and memory_mode NONE nothing is ever queued: the queue
    is empty at all times, so every next element is chosen from the paddles
    as they are when the gap ends. *)
Theorem plain_keyer_never_queues (c : KeyerConfig) (s : KeyerRuntime) :
  iambic_mode c = IambicMode.A ->
  memory_mode c = MemoryMode.NONE ->
  reachable c s ->
  queue s = [].
Proof.
  intros HA HN R. induction R as [| k s R IH]; [reflexivity |].
  pose proof (reachable_inv _ _ R) as I.
  destruct (queue_after_call k s) as [H | [H | [H | [_ H]]]]; rewrite H.
  - exact IH.
  - rewrite IH. reflexivity.
  - reflexivity.
  - destruct (inv_nomem _ _ I HN) as [Hd Hh].
    unfold latched, bonus, bonus_due.
    rewrite Hd, Hh, (inv_cfg _ _ I), HA, IH. reflexivity.
Qed.

Lemma plain_keyer_never_queues_witness :
  queue (session plain_cfg (squeeze_then_release ++ [Tick 30])) = [].
Proof.
  apply (plain_keyer_never_queues plain_cfg _ eq_refl eq_refl
           (reachable_session _ _)).
Defined.

(* ================================================================== *)
(** * SNAPSHOT: what the reference combo is *)
(* ================================================================== *)

Lemma combo_after_update_paddles (dit dah : bool) (s : KeyerRuntime) :
  get_combo_now (after (update_paddles dit dah) s) = combo_of dit dah.
Proof. rewrite after_update_paddles. destruct dit, dah; reflexivity. Qed.

(** X10.  Under SNAPSHOT, from a paddle change until the next one, the
    reference combo of the Mode-B rule is the combo that was held BEFORE the
    change, however many ticks go by.  So a bonus is due exactly in Mode B
    when a squeeze was seen and that earlier combo was not BOTH; and once a
    squeeze has been let go (the combo changes away from BOTH), an element
    completing before the next paddle change gets no bonus: the queue grows
    by the latched elements only. *)
Theorem snapshot_reference_is_previous_combo
    (s : KeyerRuntime) (dit dah : bool) (dts : list float) :
  squeeze_mode (cfg s) = SqueezeMode.SNAPSHOT ->
  get_combo_now s <> combo_of dit dah ->
  let s1 := run_calls (map Tick dts) (after (update_paddles dit dah) s) in
  reference_combo s1 = get_combo_now s /\
  bonus_due s1
  = IambicMode.eqb (iambic_mode (cfg s)) IambicMode.B
    && squeeze_seen_this_element s1
    && negb (PaddleCombo.eqb (get_combo_now s) PaddleCombo.BOTH) /\
  (get_combo_now s = PaddleCombo.BOTH ->
   forall dt : float,
     state s1 = State.SEND_DIT \/ state s1 = State.SEND_DAH ->
     (current_element_elapsed_ms s1 + dt <? current_element_total_ms s1) = false ->
     queue (after (tick dt) s1) = queue s1 ++ latched s1).
Proof.
  intros Sn Hne. cbn zeta.
  set (s0 := after (update_paddles dit dah) s).
  destruct (ticks_frame dts s0) as (Hc & _ & _ & Hl).
  assert (cfg s0 = cfg s) as Hc0
    by (unfold s0; rewrite after_update_paddles; reflexivity).
  assert (last_valid_combo s0 = get_combo_now s) as Hl0.
  { pose proof (combo_after_update_paddles dit dah s) as Hk.
    unfold s0. rewrite after_update_paddles in *.
    unfold paddles_updated at 1; cbn [last_valid_combo]. rewrite Sn.
    change (get_combo_now (set_dah_pressed dah (set_dit_pressed dit s)))
      with (get_combo_now (paddles_updated dit dah s)).
    rewrite Hk. apply PaddleCombo_eqb_neq in Hne. rewrite Hne. reflexivity. }
  assert (reference_combo (run_calls (map Tick dts) s0) = get_combo_now s) as Hr.
  { unfold reference_combo. rewrite Hc, Hc0, Sn, Hl, Hl0. reflexivity. }
  split; [exact Hr |]. split.
  - unfold bonus_due. rewrite Hr, Hc, Hc0. reflexivity.
  - intros Hb dt St Ge. unfold after.
    rewrite (tick_send_run _ _ St). cbn zeta. rewrite Ge.
    rewrite queue_after_start_gap. cbn [enqueued queue].
    change (bonus (set_current_element_elapsed_ms
                     (current_element_elapsed_ms (run_calls (map Tick dts) s0) + dt)
                     (run_calls (map Tick dts) s0)))
      with (bonus (run_calls (map Tick dts) s0)).
    unfold bonus, bonus_due. rewrite Hr, Hb.
    cbn [PaddleCombo.eqb negb]. rewrite andb_false_r, app_nil_r. reflexivity.
Qed.

Lemma snapshot_reference_is_previous_combo_witness :
  reference_combo
    (run_calls (map Tick [10; 10])
       (after (update_paddles false false)
          (session snapshot_cfg [UpdatePaddles true true; Tick 1; Tick 30])))
  = PaddleCombo.BOTH.
Proof.
  exact (proj1 (snapshot_reference_is_previous_combo
                  (session snapshot_cfg [UpdatePaddles true true; Tick 1; Tick 30])
                  false false [10; 10] eq_refl
                  (fun H => eq_ind PaddleCombo.BOTH
                              (fun k => match k with
                                        | PaddleCombo.BOTH => True
                                        | _ => False
                                        end) I _ H))).
Defined.

(* ================================================================== *)
(** * The queue has no bound *)
(* ================================================================== *)

Lemma run_calls_app (cs1 cs2 : list call) (s : KeyerRuntime) :
  run_calls (cs1 ++ cs2) s = run_calls cs2 (run_calls cs1 s).
Proof.
  revert s. induction cs1 as [| k cs1 IH]; intros s; cbn [app run_calls].
  - reflexivity.
  - apply IH.
Qed.

(** One round pops one element and queues two. *)
Lemma pump_grows (s : KeyerRuntime) :
  pumpable s ->
  pumpable (run_calls pump s) /\
  length (queue (run_calls pump s)) = S (length (queue s)).
Proof.
  intros (Hc & St & Hgt & Hge & Hd & Hh & Hdp & Hhp & Hq).
  destruct s as [c st ce tot el gt ge pp q dr hr dp hp sq lv].
  cbn in *. subst. destruct q as [| x q]; [congruence |].
  unfold pumpable.
  destruct x; cbn;
    (split;
     [repeat (split; [reflexivity |]);
      intros H; apply app_eq_nil in H; destruct H; discriminate
     | rewrite !length_app; cbn; lia]).
Qed.

Lemma pumps_grow (n : nat) (s : KeyerRuntime) :
  pumpable s ->
  length (queue (run_calls (pumps n) s)) = (n + length (queue s))%nat.
Proof.
  revert s. induction n as [| n IH]; intros s P; cbn [pumps run_calls].
  - reflexivity.
  - rewrite run_calls_app. destruct (pump_grows s P) as [P' Hl].
    rewrite (IH _ P'), Hl. lia.
Qed.

(** X11.  Nothing bounds the queue.  At 20 wpm with the default modes, a
    host that squeezes 30 ms into every element and lets go before it ends
    makes each element queue two successors (the latched opposite and the
    Mode-B bonus) while each gap pops one: after n such rounds n + 2
    elements are waiting. *)
Theorem queue_unbounded (n : nat) :
  exists cs : list call,
    length (queue (session default_cfg cs)) = (n + 2)%nat.
Proof.
  exists ((squeeze_then_release ++ [Tick 30]) ++ pumps n).
  unfold session. rewrite run_calls_app.
  apply (pumps_grow n). repeat split. discriminate.
Qed.

(* ================================================================== *)
(** * Transitions *)
(* ================================================================== *)

(** X12.  One call moves the FSM along one edge at most, however large
    dt_ms is: from IDLE only into SEND_DIT or SEND_DAH, from SEND_* only
    into the gap (no element follows another without a gap, and none ends
    in IDLE), and [update_paddles] never changes the state. *)
Theorem transition_graph (k : call) (s : KeyerRuntime) :
  let s' := after (do_call k) s in
  match k with
  | UpdatePaddles _ _ => state s' = state s
  | Tick _ =>
      match state s with
      | State.IDLE =>
          state s' = State.IDLE \/ state s' = State.SEND_DIT \/
          state s' = State.SEND_DAH
      | State.SEND_DIT =>
          state s' = State.SEND_DIT \/ state s' = State.INTER_ELEMENT_GAP
      | State.SEND_DAH =>
          state s' = State.SEND_DAH \/ state s' = State.INTER_ELEMENT_GAP
      | State.INTER_ELEMENT_GAP =>
          state s' = State.INTER_ELEMENT_GAP \/ state s' = State.IDLE \/
          state s' = State.SEND_DIT \/ state s' = State.SEND_DAH
      end
  end.
Proof.
  cbn zeta. destruct k as [dit dah | dt]; cbn [do_call].
  { rewrite after_update_paddles. reflexivity. }
  unfold after.
  assert (forall e s', state (snd (_start_element e s')) = state s' \/
                       state (snd (_start_element e s')) = send_state e) as Hs.
  { intros e s'. rewrite start_element_run.
    destruct (element_duration_ms (cfg s') e); auto. }
  assert (forall s', state (snd (_start_gap s')) = state s' \/
                     state (snd (_start_gap s')) = State.INTER_ELEMENT_GAP) as Hg.
  { intros s'. rewrite start_gap_run.
    destruct (gap_duration_ms (cfg s')); auto. }
  destruct (state s) eqn:St.
  - rewrite (tick_idle_run _ _ St).
    destruct (get_combo_now s); auto;
      match goal with |- context [_start_element ?e s] =>
        destruct (Hs e s) as [H | H]; rewrite H, ?St; cbn; auto end.
  - rewrite (tick_send_run _ _ (or_introl St)). cbn zeta.
    destruct (_ <? _); [left; exact St |].
    match goal with |- context [_start_gap ?x] =>
      destruct (Hg x) as [H | H]; rewrite H; cbn; auto end.
  - rewrite (tick_send_run _ _ (or_intror St)). cbn zeta.
    destruct (_ <? _); [left; exact St |].
    match goal with |- context [_start_gap ?x] =>
      destruct (Hg x) as [H | H]; rewrite H; cbn; auto end.
  - rewrite (tick_gap_run _ _ St). cbn zeta.
    destruct (_ <? _); [left; exact St |].
    destruct (queue s) as [| e rest];
      [destruct (next_from_paddles s) as [e |] |];
      [| right; left; reflexivity |];
      match goal with |- context [_start_element e ?x] =>
        destruct (Hs e x) as [H | H]; rewrite H;
        [left; exact St | destruct e; cbn; auto] end.
Qed.

(* ================================================================== *)
(** * dt_ms = NaN *)
(* ================================================================== *)

Lemma add_nan_ltb (x y : float) : (x + nan <? y) = false.
Proof.
  rewrite ltb_spec, add_spec.
  change (Prim2SF nan) with S754_nan.
  unfold SF64add, SFadd. destruct (Prim2SF x); reflexivity.
Qed.

(** X13.  [tick] does not guard dt_ms: a NaN is taken as "time is up".  On
    any runtime a host can hold, [tick(nan)] in SEND_DIT or SEND_DAH
    completes the element (latched elements and bonus are queued, the gap
    is entered), and in the gap it ends the gap. *)
Theorem tick_nan_is_time_up (c : KeyerConfig) (s : KeyerRuntime) :
  reachable c s ->
  match state s with
  | State.SEND_DIT | State.SEND_DAH =>
      fst (tick nan s) = Ok tt /\
      state (after (tick nan) s) = State.INTER_ELEMENT_GAP /\
      queue (after (tick nan) s) = (queue s ++ latched s) ++ bonus s
  | State.INTER_ELEMENT_GAP =>
      fst (tick nan s) = Ok tt /\
      state (after (tick nan) s) <> State.INTER_ELEMENT_GAP
  | State.IDLE => True
  end.
Proof.
  intros R. pose proof (reachable_inv _ _ R) as I.
  pose proof (inv_cfg _ _ I) as Hc. pose proof (inv_wpm _ _ I) as Hw.
  unfold after.
  destruct (state s) eqn:St; [exact Logic.I | | |];
    (assert ((wpm c =? 0) = false) as W by (apply Hw; discriminate));
    destruct (durations_ok c W) as (Hi & Ha & Hg).
  - rewrite (tick_send_run _ _ (or_introl St)). cbn zeta.
    rewrite add_nan_ltb, start_gap_run.
    cbn [enqueued cfg set_current_element_elapsed_ms]. rewrite Hc, Hg.
    repeat split.
  - rewrite (tick_send_run _ _ (or_intror St)). cbn zeta.
    rewrite add_nan_ltb, start_gap_run.
    cbn [enqueued cfg set_current_element_elapsed_ms]. rewrite Hc, Hg.
    repeat split.
  - rewrite (tick_gap_run _ _ St). cbn zeta. rewrite add_nan_ltb.
    assert (forall e s', cfg s' = c ->
              fst (_start_element e s') = Ok tt /\
              state (snd (_start_element e s')) <> State.INTER_ELEMENT_GAP) as Hs.
    { intros e s' E. rewrite start_element_run, E.
      destruct e; cbn [element_duration_ms]; rewrite ?Hi, ?Ha; cbn;
        split; [reflexivity | discriminate | reflexivity | discriminate]. }
    destruct (queue s); [destruct (next_from_paddles s) |];
      try (apply Hs; exact Hc).
    split; [reflexivity | discriminate].
Qed.

Lemma tick_nan_is_time_up_witness :
  state (after (tick nan) squeeze_released_mid_dit) = State.INTER_ELEMENT_GAP.
Proof.
  exact (proj1 (proj2 (tick_nan_is_time_up default_cfg squeeze_released_mid_dit
                         (reachable_session _ _)))).
Defined.

(* ================================================================== *)
(** * A held squeeze alternates *)
(* ================================================================== *)

Lemma squeezing_tick (c : KeyerConfig) (next : Element.t) (dt : float)
    (s : KeyerRuntime) :
  squeeze_mode c = SqueezeMode.LIVE \/ iambic_mode c = IambicMode.A ->
  cfg s = c ->
  get_combo_now s = PaddleCombo.BOTH ->
  squeezing c next s ->
  (key_down s (after (tick dt) s) = [] /\ squeezing c next (after (tick dt) s)) \/
  (key_down s (after (tick dt) s) = [next] /\
   squeezing c (opposite next) (after (tick dt) s)).
Proof.
  intros Mode Hc K Sq. unfold after.
  assert (bonus_due s = false) as Hb.
  { unfold bonus_due, reference_combo. rewrite Hc.
    destruct Mode as [-> | ->]; [rewrite K |]; cbn;
      rewrite ?andb_false_r; reflexivity. }
  destruct Sq as [St Hn Hq Hd Hh | cur St Ce Hn Hq W Hl | cur St Ce Hn Hq W Hd Hh].
  - (* at rest *)
    rewrite (tick_idle_run _ _ St), K, start_element_run, Hc.
    cbn [element_duration_ms]. subst next.
    destruct (wpm c =? 0) eqn:W.
    + destruct (durations_raise c W) as (-> & _ & _). left. cbn [snd].
      unfold key_down. cbn [state set_current_element]. rewrite St.
      split; [reflexivity |]. apply squeezing_idle; auto.
    + destruct (durations_ok c W) as (-> & _ & _). right. cbn [snd].
      unfold key_down. cbn [state started send_state]. rewrite St.
      split; [reflexivity |].
      apply (squeezing_send c _ _ Element.DIT); auto.
  - (* sending [cur] *)
    assert (state s = State.SEND_DIT \/ state s = State.SEND_DAH) as St'
      by (rewrite St; destruct cur; auto).
    rewrite (tick_send_run _ _ St'). cbn zeta. left.
    destruct (durations_ok c W) as (_ & _ & Hg).
    destruct (_ <? _).
    + cbn [snd]. unfold key_down. cbn [state checked]. rewrite St.
      split; [destruct cur; reflexivity |].
      apply (squeezing_send c _ _ cur); auto.
      destruct cur; cbn [dot_requested dah_requested checked state
                         set_current_element_elapsed_ms];
        rewrite Hl, St; reflexivity.
    + rewrite start_gap_run.
      cbn [cfg enqueued set_current_element_elapsed_ms]. rewrite Hc, Hg.
      cbn [snd]. unfold key_down. cbn [state set_state]. rewrite St.
      split; [destruct cur; reflexivity |].
      apply (squeezing_gap c _ _ cur); auto.
      cbn [queue set_state set_gap_elapsed_ms set_gap_total_ms enqueued].
      change (bonus (set_current_element_elapsed_ms
                       (current_element_elapsed_ms s + dt) s)) with (bonus s).
      change (latched (set_current_element_elapsed_ms
                         (current_element_elapsed_ms s + dt) s)) with (latched s).
      unfold bonus, latched. rewrite Hb.
      change (queue (set_current_element_elapsed_ms
                       (current_element_elapsed_ms s + dt) s)) with (queue s).
      rewrite Hq, Hn.
      destruct cur; rewrite Hl; cbn;
        [destruct (dah_requested s) | destruct (dot_requested s)]; auto.
  - (* in the gap after [cur] *)
    rewrite (tick_gap_run _ _ St). cbn zeta.
    destruct (durations_ok c W) as (Hi & Ha & _).
    assert (forall s', cfg s' = c -> state s' = State.INTER_ELEMENT_GAP ->
              queue s' = [] ->
              dot_requested s' = false -> dah_requested s' = false ->
              key_down s (snd (_start_element next s')) = [next] /\
              squeezing c (opposite next) (snd (_start_element next s'))) as Hs.
    { intros s' E St1 Q1 D1 H1. rewrite start_element_run, E.
      assert (exists d, element_duration_ms c next = Ok d) as [d ->]
        by (apply element_duration_ok; exact W).
      cbn [snd]. unfold key_down. cbn [state started]. rewrite St.
      split; [destruct next; reflexivity |].
      apply (squeezing_send c _ _ next); auto.
      destruct next; assumption. }
    destruct (_ <? _).
    + left. cbn [snd]. unfold key_down.
      cbn [state set_gap_elapsed_ms]. rewrite St.
      split; [reflexivity |]. apply (squeezing_gap c _ _ cur); auto.
    + right. destruct Hq as [Hq | Hq]; rewrite Hq.
      * unfold next_from_paddles. rewrite K, Ce.
        replace (if opt_element_is (Some cur) Element.DIT
                 then Some Element.DAH else Some Element.DIT)
          with (Some next) by (rewrite Hn; destruct cur; reflexivity).
        apply Hs; auto.
      * apply Hs; auto.
Qed.

Lemma squeezing_ticks (c : KeyerConfig) (dts : list float) :
  squeeze_mode c = SqueezeMode.LIVE \/ iambic_mode c = IambicMode.A ->
  forall (next : Element.t) (s : KeyerRuntime),
    cfg s = c -> get_combo_now s = PaddleCombo.BOTH -> squeezing c next s ->
    alternates_from next (keyed (map Tick dts) s).
Proof.
  intros Mode. induction dts as [| dt dts IH]; intros next s Hc K Sq;
    cbn [map keyed do_call]; [exact Logic.I |].
  destruct (tick_frame s dt) as (Hc' & Hd & Hh & _).
  assert (get_combo_now (after (tick dt) s) = PaddleCombo.BOTH) as K'
    by (unfold get_combo_now in *; rewrite Hd, Hh; exact K).
  rewrite Hc in Hc'.
  destruct (squeezing_tick c next dt s Mode Hc K Sq) as [[-> Sq'] | [-> Sq']];
    cbn [app alternates_from]; [| split; [reflexivity |]]; apply IH; auto.
Qed.

(** X14.  Under LIVE, or under Mode A, a squeeze held from rest keys
    DIT, DAH, DIT, DAH, ...: whatever the tick sizes, the memory mode, the
    dead zones and the wpm, each key-down is the opposite of the one
    before, the first being a DIT. *)
Theorem held_squeeze_alternates (c : KeyerConfig) (dts : list float) :
  squeeze_mode c = SqueezeMode.LIVE \/ iambic_mode c = IambicMode.A ->
  alternates_from Element.DIT
    (keyed (UpdatePaddles true true :: map Tick dts) (KeyerRuntime_init c)).
Proof.
  intros Mode. cbn [keyed do_call]. rewrite after_update_paddles.
  change (key_down (KeyerRuntime_init c)
            (paddles_updated true true (KeyerRuntime_init c))) with (@nil Element.t).
  cbn [app]. apply (squeezing_ticks c); auto.
  apply squeezing_idle; reflexivity.
Qed.

Lemma held_squeeze_alternates_witness :
  keyed (UpdatePaddles true true :: map Tick [1; 30; 30; 60; 90; 90; 60])
    (KeyerRuntime_init default_cfg)
  = [Element.DIT; Element.DAH; Element.DIT] /\
  alternates_from Element.DIT
    (keyed (UpdatePaddles true true :: map Tick [1; 30; 30; 60; 90; 90; 60])
       (KeyerRuntime_init default_cfg)).
Proof.
  split; [reflexivity |].
  apply (held_squeeze_alternates default_cfg [1; 30; 30; 60; 90; 90; 60]).
  left. reflexivity.
Defined.

(** Under SNAPSHOT with Mode B the same calls key DIT, DAH, DAH: the
    reference combo stays NONE (the combo before the squeeze), so every
    element gets a bonus on top of its latch. *)
Example snapshot_held_squeeze_repeats :
  keyed snapshot_squeeze_held (KeyerRuntime_init snapshot_cfg)
  = [Element.DIT; Element.DAH; Element.DAH].
Proof. reflexivity. Qed.

(* ================================================================== *)
(** * An inverted memory window *)
(* ================================================================== *)

Lemma SFleb_trans (a b c : spec_float) :
  SFleb a b = true -> SFleb b c = true -> SFleb a c = true.
Proof.
  unfold SFleb.
  destruct a as [sa | sa | | sa ma ea], b as [sb | sb | | sb mb eb],
    c as [sc | sc | | sc mc ec]; cbn [SFcompare];
    try discriminate; try reflexivity;
    try (destruct sa; try discriminate; try reflexivity;
         destruct sb; try discriminate; try reflexivity;
         destruct sc; try discriminate; reflexivity);
    try (destruct sa, sb; try discriminate; reflexivity);
    try (destruct sa, sc; try discriminate; reflexivity);
    try (destruct sb, sc; try discriminate; reflexivity).
  destruct sa, sb, sc; try discriminate; try reflexivity;
    change (Pos.compare_cont Eq ma mb) with (Pos.compare ma mb);
    change (Pos.compare_cont Eq mb mc) with (Pos.compare mb mc);
    change (Pos.compare_cont Eq ma mc) with (Pos.compare ma mc);
    destruct (Z.compare_spec ea eb), (Z.compare_spec eb ec),
      (Z.compare_spec ea ec); try discriminate; try reflexivity; try lia;
    destruct (Pos.compare_spec ma mb), (Pos.compare_spec mb mc),
      (Pos.compare_spec ma mc); cbn [CompOpp];
    try discriminate; try reflexivity; try lia.
Qed.

Lemma leb_trans (a b c : float) :
  (a <=? b) = true -> (b <=? c) = true -> (a <=? c) = true.
Proof. rewrite !leb_spec. apply SFleb_trans. Qed.

(** No progress value lies in an inverted window. *)
Lemma inverted_window_empty (c : KeyerConfig) (p : float) :
  (100 - mem_block_end_pct c <? mem_block_start_pct c) = true ->
  in_window c p = false.
Proof.
  intros Inv. unfold in_window.
  destruct (mem_block_start_pct c <=? p) eqn:L; [| reflexivity].
  destruct (p <=? 100 - mem_block_end_pct c) eqn:U; [| reflexivity].
  pose proof (leb_ltb_false _ _ (leb_trans _ _ _ L U)) as F.
  congruence.
Qed.

Lemma latches_after_start_element (e : Element.t) (s : KeyerRuntime) :
  dot_requested (snd (_start_element e s)) = dot_requested s /\
  dah_requested (snd (_start_element e s)) = dah_requested s.
Proof.
  rewrite start_element_run.
  destruct (element_duration_ms (cfg s) e); split; reflexivity.
Qed.

(** X15.  The dead zones are not validated, and an inverted window
    (100 - mem_block_end_pct below mem_block_start_pct, e.g. 60 and 60)
    masks the memory altogether: whatever memory_mode says, both latches
    stay clear at all times. *)
Theorem inverted_window_never_latches (c : KeyerConfig) (s : KeyerRuntime) :
  (100 - mem_block_end_pct c <? mem_block_start_pct c) = true ->
  reachable c s ->
  dot_requested s = false /\ dah_requested s = false.
Proof.
  intros Inv R. induction R as [| k s R [IHd IHh]]; [split; reflexivity |].
  pose proof (inv_cfg _ _ (reachable_inv _ _ R)) as Hc.
  destruct k as [dit dah | dt]; cbn [do_call].
  { rewrite after_update_paddles. split; assumption. }
  unfold after. destruct (state s) eqn:St.
  - rewrite (tick_idle_run _ _ St).
    destruct (get_combo_now s); try (split; assumption);
      match goal with |- context [_start_element ?e s] =>
        destruct (latches_after_start_element e s) as [-> ->] end;
      split; assumption.
  - rewrite (tick_send_run _ _ (or_introl St)). cbn zeta.
    destruct (current_element_elapsed_ms s + dt <? current_element_total_ms s).
    + cbn [snd checked dot_requested dah_requested cfg
           set_current_element_elapsed_ms].
      rewrite Hc, (inverted_window_empty c _ Inv), IHd, IHh, !andb_false_r.
      split; reflexivity.
    + match goal with |- context [_start_gap ?x] =>
        destruct (latches_after_start_gap x) as [-> ->] end.
      split; reflexivity.
  - rewrite (tick_send_run _ _ (or_intror St)). cbn zeta.
    destruct (current_element_elapsed_ms s + dt <? current_element_total_ms s).
    + cbn [snd checked dot_requested dah_requested cfg
           set_current_element_elapsed_ms].
      rewrite Hc, (inverted_window_empty c _ Inv), IHd, IHh, !andb_false_r.
      split; reflexivity.
    + match goal with |- context [_start_gap ?x] =>
        destruct (latches_after_start_gap x) as [-> ->] end.
      split; reflexivity.
  - rewrite (tick_gap_run _ _ St). cbn zeta.
    destruct (gap_elapsed_ms s + dt <? gap_total_ms s); [split; assumption |].
    destruct (queue s) as [| e rest];
      [destruct (next_from_paddles s) as [e |] |];
      [| split; assumption |];
      match goal with |- context [_start_element e ?x] =>
        destruct (latches_after_start_element e x) as [-> ->] end;
      split; assumption.
Qed.

Lemma inverted_window_never_latches_witness :
  dah_requested (session inverted_cfg [UpdatePaddles true true; Tick 1; Tick 30])
  = false.
Proof.
  exact (proj2 (inverted_window_never_latches inverted_cfg _ eq_refl
                  (reachable_session _ _))).
Defined.
